(** * gphoto2go: a shallow embedding of the camera session layer

    The development follows [gphoto2go.go].  Native (cgo) calls are modelled
    by the values they hand back and by a log of the calls that release
    native memory; Go's [uint64] arithmetic is written on [Z] with its
    wrap-around; a Go [nil] error is [None]; a run-time panic (an index out
    of range) is the [None] of an [option] result. *)

From Stdlib Require Import ZArith Lia String Ascii Strings.Byte.
From stdpp Require Import base option list strings gmap.

Local Open Scope Z_scope.

(** ** Machine integers *)

(** [uint64(z)]: the value of [z] in 64-bit unsigned arithmetic. *)
Definition uint64 (z : Z) : Z := z mod 2 ^ 64.

(** [int(z)] on a 64-bit platform: the two's complement reading of [z]. *)
Definition int (z : Z) : Z := (z + 2 ^ 63) mod 2 ^ 64 - 2 ^ 63.

(** The largest length a Go slice can have. *)
Definition max_int : Z := 2 ^ 63 - 1.

(** [len(p)] of a slice, as a Go [int]. *)
Definition len {A} (p : list A) : Z := Z.of_nat (length p).

(** ** Errors *)

(** The error values the package returns: [io.ErrClosedPipe], [io.EOF] and
    the result of [fmt.Errorf]. *)
Inductive error : Type :=
  | ErrClosedPipe
  | EOF
  | Errorf (msg : string).

(** [func cameraResultToError(err C.int) error]; [gp_result_as_string] is
    the native library's text for a result code. *)
Definition cameraResultToError (gp_result_as_string : Z -> string) (err : Z)
    : option error :=
  if negb (err =? 0) then Some (Errorf (gp_result_as_string err)) else None.

(** ** Native memory management calls *)

(** Handles of native objects. *)
Definition handle : Type := nat.

(** The native calls that create or release native objects, with what they
    hand back: a result code and, for a call with an out-parameter, the
    pointer found in it afterwards ([None] is a null pointer). *)
Inductive native_call : Type :=
  | gp_file_free (f : handle)
  | gp_widget_new (rc : Z) (w : option handle)
  | gp_camera_get_config (rc : Z) (w : option handle)
  | gp_widget_free (w : option handle)
  | C_free (ptr : option handle).

Definition is_file_free (f : handle) (c : native_call) : bool :=
  match c with
  | gp_file_free g => Nat.eqb f g
  | _ => false
  end.

(** How many times the file object [f] is released in a log. *)
Definition releases (f : handle) (log : list native_call) : nat :=
  length (List.filter (is_file_free f) log).

(** The widgets a log leaves allocated: those a successful [gp_widget_new]
    created and no later [gp_widget_free] released. *)
Fixpoint live_widgets (log : list native_call) (live : list handle)
    : list handle :=
  match log with
  | [] => live
  | gp_widget_new rc (Some w) :: rest =>
      live_widgets rest (if rc =? 0 then w :: live else live)
  | gp_widget_free (Some w) :: rest =>
      live_widgets rest (List.filter (fun x => negb (Nat.eqb x w)) live)
  | _ :: rest => live_widgets rest live
  end.

(** ** The file reader *)

Module Reader.

(** [const fileReaderBufferSize = 1 * 1024 * 1024] *)
Definition fileReaderBufferSize : Z := 1 * 1024 * 1024.

(** [type cameraFileReader struct].  [cBuffer] is the native memory the data
    pointer designates; the [camera] pointer and the [buffer] array, of which
    only the length [fileReaderBufferSize] is ever used, are left out. *)
Record cameraFileReader : Type := mkReader {
  folder : string;
  fileName : string;
  fullSize : Z;
  offset : Z;
  closed : bool;
  cCameraFile : handle;
  cBuffer : list byte
}.

Definition set_offset (cfr : cameraFileReader) (o : Z) : cameraFileReader :=
  mkReader (folder cfr) (fileName cfr) (fullSize cfr) o (closed cfr)
           (cCameraFile cfr) (cBuffer cfr).

Definition set_closed (cfr : cameraFileReader) (b : bool) : cameraFileReader :=
  mkReader (folder cfr) (fileName cfr) (fullSize cfr) (offset cfr) b
           (cCameraFile cfr) (cBuffer cfr).

(** [goSlice[j]]: [goSlice] is the slice of [fullSize] elements laid over
    the native buffer; an index outside it panics. *)
Definition goSlice_at (cfr : cameraFileReader) (j : Z) : option byte :=
  if (0 <=? j) && (j <? fullSize cfr) then cBuffer cfr !! Z.to_nat j else None.

(** [p[i] = b]; an index outside [p] panics. *)
Definition store (p : list byte) (i : Z) (b : byte) : option (list byte) :=
  if (0 <=? i) && (i <? len p) then Some (<[Z.to_nat i := b]> p) else None.

(** [for ; i < toRead; i++ { p[i] = byte(goSlice[cfr.offset+i]) }] with
    [steps] iterations left. *)
Fixpoint copy_loop (cfr : cameraFileReader) (steps : nat) (i : Z)
    (p : list byte) : option (list byte) :=
  match steps with
  | O => Some p
  | S k =>
      b ← goSlice_at cfr (uint64 (offset cfr + i));
      p' ← store p i b;
      copy_loop cfr k (uint64 (i + 1)) p'
  end.

(** [func (cfr *cameraFileReader) Read(p []byte) (int, error)].  The result
    holds the reader and the caller's buffer after the call and the returned
    pair. *)
Definition Read (cfr : cameraFileReader) (p : list byte)
    : option (cameraFileReader * list byte * (Z * option error)) :=
  if closed cfr then Some (cfr, p, (0, Some ErrClosedPipe)) else
  let n := uint64 (len p) in
  if n =? 0 then Some (cfr, p, (0, None)) else
  let bufLen := uint64 fileReaderBufferSize in
  let remaining := uint64 (fullSize cfr - offset cfr) in
  let toRead := bufLen in
  let toRead := if toRead >? remaining then remaining else toRead in
  let toRead := if toRead >? n then n else toRead in
  p' ← copy_loop cfr (Z.to_nat toRead) 0 p;
  let cfr' := set_offset cfr (uint64 (offset cfr + toRead)) in
  if offset cfr' <? fullSize cfr'
  then Some (cfr', p', (int toRead, None))
  else Some (cfr', p', (int toRead, Some EOF)).

(** [func (cfr *cameraFileReader) Close() error], with the log of native
    calls it extends. *)
Definition Close (cfr : cameraFileReader) (log : list native_call)
    : cameraFileReader * list native_call * option error :=
  if negb (closed cfr)
  then (set_closed cfr true, log ++ [gp_file_free (cCameraFile cfr)], None)
  else (cfr, log, None).

(** [func (c *Camera) FileReader(folder, fileName string) io.ReadCloser].
    [h] is the file object [gp_file_new] hands back and [data] the bytes
    [gp_file_get_data_and_size] points to, whose count it stores in
    [cSize]. *)
Definition FileReader (folder fileName : string) (h : handle)
    (data : list byte) : cameraFileReader :=
  let cSize := len data in
  mkReader folder fileName (uint64 cSize) 0 false h data.

(** *** Sequences of operations *)

Inductive op : Type :=
  | OpRead (p : list byte)
  | OpClose.

(** One operation on a reader and the native log; [None] is a panic. *)
Definition step (st : cameraFileReader * list native_call) (o : op)
    : option (cameraFileReader * list native_call) :=
  match o with
  | OpRead p => r ← Read st.1 p; Some (r.1.1, st.2)
  | OpClose => Some (Close st.1 st.2).1
  end.

Fixpoint run (ops : list op) (st : cameraFileReader * list native_call)
    : option (cameraFileReader * list native_call) :=
  match ops with
  | [] => Some st
  | o :: rest => st' ← step st o; run rest st'
  end.

(** The buffer of an operation is a Go slice. *)
Definition op_ok (o : op) : Prop :=
  match o with
  | OpRead p => len p <= max_int
  | OpClose => True
  end.

(** The data model's invariant. *)
Definition reader_inv (cfr : cameraFileReader) : Prop :=
  0 <= offset cfr <= fullSize cfr /\ fullSize cfr < 2 ^ 64 /\
  len (cBuffer cfr) = fullSize cfr.

End Reader.

(** ** Folder listing *)

Module Listing.

(** [strings.HasSuffix(s, suffix)]:
    [len(s) >= len(suffix) && s[len(s)-len(suffix):] == suffix]. *)
Definition HasSuffix (s suffix : string) : bool :=
  (String.length suffix <=? String.length s)%nat &&
  String.eqb
    (substring (String.length s - String.length suffix)
               (String.length suffix) s)
    suffix.

(** A native [CameraList]: its name/value entries, in order. *)
Definition CameraList : Type := list (string * string).

Definition gp_list_count (l : CameraList) : Z := len l.

(** [gp_list_get_name] and [gp_list_get_value] followed by [C.GoString];
    an out-parameter left null reads as the empty string. *)
Definition gp_list_get_name (l : CameraList) (i : Z) : string :=
  default EmptyString (fst <$> l !! Z.to_nat i).

Definition gp_list_get_value (l : CameraList) (i : Z) : string :=
  default EmptyString (snd <$> l !! Z.to_nat i).

(** [for ; i < size; i++ { ...; vals[key] = val }] with [steps] iterations
    left. *)
Fixpoint map_loop (cameraList : CameraList) (steps : nat) (i : Z)
    (vals : gmap string string) : gmap string string :=
  match steps with
  | O => vals
  | S k =>
      let key := gp_list_get_name cameraList i in
      let val := gp_list_get_value cameraList i in
      map_loop cameraList k (i + 1) (<[key := val]> vals)
  end.

(** [func cameraListToMap(cameraList *C.CameraList) (map[string]string, int)] *)
Definition cameraListToMap (cameraList : CameraList)
    : gmap string string * Z :=
  let size := int (gp_list_count cameraList) in
  let vals : gmap string string := ∅ in
  if size <? 0 then (vals, size)
  else (map_loop cameraList (Z.to_nat size) 0 vals, 0).

Section Session.

(** The native library and the Go runtime, as far as the listing code
    sees them: the text of a result code, the listing of a folder (result
    code and entries), and the order in which [range] visits the keys of
    a map. *)
Variable gp_result_as_string : Z -> string.
Variable gp_camera_folder_list_folders : string -> Z * CameraList.
Variable range_keys : gmap string string -> list string.

(** [func (c *Camera) ListFolders(folder string) ([]string, error)].
    [names] has one slot per key and the loop fills them in the order of
    [range]. *)
Definition ListFolders (folder : string) : list string * option error :=
  let folder := if String.eqb folder "" then "/"%string else folder in
  let '(rc, cameraList) := gp_camera_folder_list_folders folder in
  match cameraResultToError gp_result_as_string rc with
  | Some err => ([], Some err)
  | None =>
      let '(folderMap, _) := cameraListToMap cameraList in
      let names := range_keys folderMap in
      (names, None)
  end.

(** The body of [for _, sub := range subfolders] in [RListFolders], given
    the recursive call; [None] when the call runs out of fuel. *)
Fixpoint sub_loop (rec : string -> option (list string)) (path : string)
    (subfolders : list string) (folders : list string)
    : option (list string) :=
  match subfolders with
  | [] => Some folders
  | sub :: rest =>
      let subPath := (path +:+ sub)%string in
      let folders := folders ++ [subPath] in
      r ← rec subPath;
      let folders := folders ++ r in
      sub_loop rec path rest folders
  end.

(** [func (c *Camera) RListFolders(folder string) []string], with a bound
    [fuel] on the depth of the recursion. *)
Fixpoint RListFolders (fuel : nat) (folder : string)
    : option (list string) :=
  match fuel with
  | O => None
  | S fuel' =>
      let folders := [] in
      let path := folder in
      let path :=
        if negb (HasSuffix path "/") then (path +:+ "/")%string else path in
      let '(subfolders, _) := ListFolders path in
      sub_loop (RListFolders fuel') path subfolders folders
  end.

(** The path [RListFolders] lists for [folder]. *)
Definition list_path (folder : string) : string :=
  if negb (HasSuffix folder "/") then (folder +:+ "/")%string else folder.

(** The listings below [path] form a finite tree. *)
Inductive finite_below (path : string) : Prop :=
  | finite_below_intro :
      (forall sub, sub ∈ (ListFolders path).1 ->
                   finite_below (list_path (path +:+ sub))) ->
      finite_below path.

(** A call of [RListFolders] that returns, and what it returns. *)
Definition returns (folder : string) (out : list string) : Prop :=
  exists fuel, forall fuel', (fuel <= fuel')%nat ->
    RListFolders fuel' folder = Some out.

End Session.

(** The pre-order listing: for each subfolder in turn its path, then the
    paths listed below it. *)
Definition appended (path : string) (subfolders : list string)
    (outs : list (list string)) : list string :=
  concat (zip_with (fun sub r => (path +:+ sub)%string :: r) subfolders outs).

(** The listing in the words of the specification: all the direct subfolder
    paths first, then the results of the recursive calls. *)
Definition direct_subfolders_first (path : string) (subfolders : list string)
    (outs : list (list string)) : list string :=
  map (fun sub => (path +:+ sub)%string) subfolders ++ concat outs.

(** *** Separators in paths *)

Definition is_sep (c : ascii) : bool := Ascii.eqb c "/".

(** [s] ends with a separator. *)
Fixpoint ends_with_sep (s : string) : bool :=
  match s with
  | EmptyString => false
  | String c EmptyString => is_sep c
  | String _ rest => ends_with_sep rest
  end.

Definition starts_with_sep (s : string) : bool :=
  match s with
  | String c _ => is_sep c
  | EmptyString => false
  end.

(** [s] holds two separators in a row. *)
Fixpoint double_sep (s : string) : bool :=
  match s with
  | String c rest => (is_sep c && starts_with_sep rest) || double_sep rest
  | EmptyString => false
  end.

(** [s] holds a separator. *)
Fixpoint has_sep (s : string) : bool :=
  match s with
  | String c rest => is_sep c || has_sep rest
  | EmptyString => false
  end.

(** A folder name as storage reports it: not empty, no separator in it. *)
Definition name_ok (s : string) : bool :=
  negb (String.eqb s "") && negb (has_sep s).

End Listing.

(** ** Device events *)

Module Events.

(** [type CameraEventType int] *)
Definition CameraEventType : Type := Z.

(** [type CameraEvent struct] *)
Record CameraEvent : Type := mkEvent {
  Type_ : CameraEventType;
  Folder : string;
  File : string
}.

(** The native [CameraFilePath] an event's payload points to. *)
Record C_CameraFilePath : Type := mkCPath {
  name : string;
  folder : string
}.

(** What a goroutine does with a channel. *)
Inductive chan_op : Type :=
  | Send (e : CameraEvent)
  | CloseChan.

(** An unbuffered channel as its receiver sees it: the channel operations
    the sending goroutine has still to perform, in program order, and
    whether the channel has been closed. *)
Record chan : Type := mkChan {
  pending : list chan_op;
  is_closed : bool
}.

(** What a receive [<-ch] comes to. *)
Inductive received : Type :=
  | Value (e : CameraEvent)
  | ClosedChannel
  | BlocksForever.

(** [<-ch]: a receive pairs with the sender's next send; on a closed channel
    it returns at once; on an open channel whose sender has nothing left to
    do it never returns. *)
Definition recv_ops (ops : list chan_op) : received * chan :=
  match ops with
  | Send e :: rest => (Value e, mkChan rest false)
  | CloseChan :: rest => (ClosedChannel, mkChan rest true)
  | [] => (BlocksForever, mkChan [] false)
  end.

Definition recv (ch : chan) : received * chan :=
  if is_closed ch then (ClosedChannel, ch) else recv_ops (pending ch).

(** A receiver that performs up to [k] receives in a row: what each one
    comes to, and the channel they leave.  A receive that blocks forever is
    the receiver's last. *)
Fixpoint recv_many (k : nat) (ch : chan) : list received * chan :=
  match k with
  | O => ([], ch)
  | S k' =>
      match recv ch with
      | (BlocksForever, ch') => ([BlocksForever], ch')
      | (r, ch') =>
          let '(rs, ch'') := recv_many k' ch' in
          (r :: rs, ch'')
      end
  end.

Section Native.

(** [C.GP_EVENT_FILE_ADDED] *)
Variable GP_EVENT_FILE_ADDED : Z.

Definition EventFileAdded : CameraEventType := GP_EVENT_FILE_ADDED.

(** [func cCameraEventToGoCameraEvent(voidPtr unsafe.Pointer, eventType
    C.CameraEventType) *CameraEvent]; reading through a null [voidPtr]
    panics. *)
Definition cCameraEventToGoCameraEvent (voidPtr : option C_CameraFilePath)
    (eventType : Z) : option CameraEvent :=
  let ce := mkEvent 0 "" "" in
  let ce := mkEvent eventType (Folder ce) (File ce) in
  if Type_ ce =? EventFileAdded then
    cameraFilePath ← voidPtr;
    let ce := mkEvent (Type_ ce) (Folder ce) (name cameraFilePath) in
    let ce := mkEvent (Type_ ce) (folder cameraFilePath) (File ce) in
    Some ce
  else Some ce.

(** The goroutine [AsyncWaitForEvent] starts, as the channel operations it
    performs: [eventType] and [vp] are what [gp_camera_wait_for_event]
    stores before it returns; a panic in the conversion ends the goroutine
    before it sends.  The body holds one send and no [close]. *)
Definition wait_goroutine (eventType : Z) (vp : option C_CameraFilePath)
    : list chan_op :=
  match cCameraEventToGoCameraEvent vp eventType with
  | Some e => [Send e]
  | None => []
  end.

(** [func (c *Camera) AsyncWaitForEvent(timeout int) chan *CameraEvent]:
    the channel made by [make(chan *CameraEvent)] with the goroutine that
    sends on it.  The deferred [C.free(vp)] runs when the function returns,
    on the null pointer [vp] then holds, and is left out. *)
Definition AsyncWaitForEvent (timeout : Z) (eventType : Z)
    (vp : option C_CameraFilePath) : chan :=
  mkChan (wait_goroutine eventType vp) false.

End Native.

End Events.

(** ** The configuration tree *)

Module Config.

(** [type CameraWidget struct]; [None] is a null widget pointer. *)
Record CameraWidget : Type := mkWidget { widget : option handle }.

Section Native.

Variable gp_result_as_string : Z -> string.

(** [func (w *CameraWidget) Free()]: the result of [gp_widget_free] is
    only printed. *)
Definition Free (w : CameraWidget) (log : list native_call)
    : list native_call :=
  log ++ [gp_widget_free (widget w)].

(** Modelled from the spec: the native [gp_widget_new], which stores a
    newly allocated widget in its out-parameter when it succeeds (result
    code 0) and leaves the out-parameter as it was when it fails. *)
Definition widget_new_out (rc : Z) (fresh : handle) (w : option handle)
    : option handle :=
  if rc =? 0 then Some fresh else w.

(** Modelled from the spec: the native [gp_camera_get_config], which
    populates the root widget it is given from the device; the pointer it
    is given stays the same, whatever the result code. *)
Definition get_config_out (rc : Z) (w : option handle) : option handle := w.

(** [func (c *Camera) GetConfig()], which returns a widget pointer and an
    error.  [rc_new] and [rc_get] are the result codes of [gp_widget_new]
    and [gp_camera_get_config] and [fresh] is the widget a successful
    [gp_widget_new] allocates.  The C string [p] is left out. *)
Definition GetConfig (fresh : handle) (rc_new rc_get : Z)
    (log : list native_call)
    : option CameraWidget * option error * list native_call :=
  let w := mkWidget None in
  let w := mkWidget (widget_new_out rc_new fresh (widget w)) in
  let log := log ++ [gp_widget_new rc_new (widget w)] in
  match cameraResultToError gp_result_as_string rc_new with
  | Some err =>
      let log := log ++ [C_free (widget w)] in
      (None, Some err, log)
  | None =>
      let w := mkWidget (get_config_out rc_get (widget w)) in
      let log := log ++ [gp_camera_get_config rc_get (widget w)] in
      match cameraResultToError gp_result_as_string rc_get with
      | Some err =>
          let log := Free w log in
          (None, Some err, log)
      | None => (Some w, None, log)
      end
  end.

End Native.

End Config.

(** ** Concrete sessions used in the examples *)

Module Fixtures.

Import Reader.

(** A five-byte file. *)
Definition sample_data : list byte := [x01; x02; x03; x04; x05].

(** The reader [FileReader] builds over it. *)
Definition sample_reader : cameraFileReader :=
  FileReader "/store_00010001/DCIM" "IMG_0001.JPG" 7%nat sample_data.

(** The same reader once all five bytes have been delivered. *)
Definition exhausted_reader : cameraFileReader :=
  set_offset sample_reader 5.

(** The reader over a file of no bytes. *)
Definition empty_reader : cameraFileReader :=
  FileReader "/store_00010001/DCIM" "EMPTY" 8%nat [].

(** A caller's buffer of eight bytes. *)
Definition buf8 : list byte := replicate 8 x00.

(** Storage with the folders [/a], [/a/b], [/c] and [/c/d]: what
    [gp_camera_folder_list_folders] answers for each path. *)
Definition storage (path : string) : Z * Listing.CameraList :=
  if String.eqb path "/" then (0, [("a", ""); ("c", "")]%string)
  else if String.eqb path "/a/" then (0, [("b", "")]%string)
  else if String.eqb path "/c/" then (0, [("d", "")]%string)
  else if String.eqb path "/a/b/" then (0, [])
  else if String.eqb path "/c/d/" then (0, [])
  else (-107, []).

(** The same storage when listing [/a/] fails with an I/O error. *)
Definition faulty_storage (path : string) : Z * Listing.CameraList :=
  if String.eqb path "/a/" then (-7, []) else storage path.

Definition result_text (rc : Z) : string :=
  if rc =? -107 then "Directory not found"
  else if rc =? -7 then "I/O problem"
  else "Unspecified error".

(** One order in which [range] may visit the keys of a map. *)
Definition range_order (m : gmap string string) : list string :=
  (map_to_list m).*1.

(** A file-added event's payload. *)
Definition added_path : Events.C_CameraFilePath :=
  Events.mkCPath "IMG_0002.JPG" "/store_00010001/DCIM".

End Fixtures.

(** ** Reading a file in several calls *)

Module ReadLoop.

Import Reader.

(** What one [Read] hands to its caller: the buffer after the call and the
    returned pair. *)
Definition read_result : Type := (list byte * (Z * option error))%type.

(** The bytes a [Read] delivered: the first [n] bytes of the buffer, [n]
    being the returned count. *)
Definition delivered (r : read_result) : list byte :=
  take (Z.to_nat r.2.1) r.1.

(** [Read] called once with each buffer of [bufs] in turn, on the reader
    the call before left; [None] is a panic. *)
Fixpoint reads (cfr : cameraFileReader) (bufs : list (list byte))
    : option (cameraFileReader * list read_result) :=
  match bufs with
  | [] => Some (cfr, [])
  | p :: rest =>
      r ← Read cfr p;
      t ← reads r.1.1 rest;
      Some (t.1, (r.1.2, r.2) :: t.2)
  end.

(** All the bytes a sequence of calls delivered, in order. *)
Definition stream (rs : list read_result) : list byte :=
  concat (map delivered rs).

(** Whether an operation is a [Close]. *)
Definition is_close (o : op) : bool :=
  match o with
  | OpClose => true
  | OpRead _ => false
  end.

End ReadLoop.

(** ** Listing and deleting files *)

Module Files.

Import Listing.

Section Session.

Variable gp_result_as_string : Z -> string.
Variable gp_camera_folder_list_files : string -> Z * CameraList.
Variable range_keys : gmap string string -> list string.

(** [func (c *Camera) ListFiles(folder string) ([]string, error)] *)
Definition ListFiles (folder : string) : list string * option error :=
  let folder := if String.eqb folder "" then "/"%string else folder in
  let folder :=
    if negb (HasSuffix folder "/") then (folder +:+ "/")%string else folder in
  let '(rc, cameraList) := gp_camera_folder_list_files folder in
  match cameraResultToError gp_result_as_string rc with
  | Some err => ([], Some err)
  | None =>
      let '(fileNameMap, _) := cameraListToMap cameraList in
      let names := range_keys fileNameMap in
      (names, None)
  end.

(** [&b[0]] for a byte slice [b]: the address of its first byte, here the
    bytes from there on; the index panics on an empty slice. *)
Definition first_byte_pointer (b : list byte) : option (list byte) :=
  if 0 <? len b then Some b else None.

(** [func (c *Camera) DeleteFile(folder, file string) error]; [rc] is the
    result code of [gp_camera_file_delete] and [None] is a panic. *)
Definition DeleteFile (folder file : string) (rc : Z)
    : option (option error) :=
  let folderBytes := list_byte_of_string folder in
  let fileBytes := list_byte_of_string file in
  folderPointer ← first_byte_pointer folderBytes;
  filePointer ← first_byte_pointer fileBytes;
  Some (cameraResultToError gp_result_as_string rc).

End Session.

End Files.

(** ** Paths below a name *)

Module Paths.

Import Listing.

(** [e] is the path [path] followed by the name [sub], or lies below it:
    the name is followed by nothing or by a separator. *)
Definition at_or_below (path sub e : string) : Prop :=
  exists t, e = (path +:+ (sub +:+ t))%string /\
            (t = ""%string \/ starts_with_sep t = true).

(** [e] lies below the name [sub] of [path]: the name is followed by a
    separator. *)
Definition below (path sub e : string) : Prop :=
  exists t, e = (path +:+ (sub +:+ t))%string /\ starts_with_sep t = true.

End Paths.

(** ** More concrete sessions *)

Module Samples.

(** A listing in which the name [a] comes twice. *)
Definition repeated_names : Listing.CameraList :=
  [("a", "1"); ("b", "2"); ("a", "3")]%string.

(** Storage whose root lists the name [a] twice. *)
Definition repeating_storage (path : string) : Z * Listing.CameraList :=
  if String.eqb path "/" then (0, repeated_names) else (-107, []).

(** The files of the folder [/store/]. *)
Definition file_storage (path : string) : Z * Listing.CameraList :=
  if String.eqb path "/store/"
  then (0, [("IMG_0001.JPG", ""); ("IMG_0002.JPG", "")]%string)
  else (-107, []).

(** Three caller buffers of two bytes each. *)
Definition three_buffers : list (list byte) :=
  [[x00; x00]; [x00; x00]; [x00; x00]].

End Samples.

(** * Properties of the file reader *)

Section ReaderProofs.

Import Reader.

Lemma uint64_small z : 0 <= z < 2 ^ 64 -> uint64 z = z.
Proof. intros H. unfold uint64. apply Z.mod_small. exact H. Qed.

Lemma int_small z : 0 <= z < 2 ^ 63 -> int z = z.
Proof. intros H. unfold int. rewrite Z.mod_small; lia. Qed.

Lemma len_nonneg {A} (p : list A) : 0 <= len p.
Proof. unfold len. lia. Qed.

Lemma set_offset_same cfr : set_offset cfr (offset cfr) = cfr.
Proof. destruct cfr; reflexivity. Qed.

(** The copy loop moves [steps] bytes from position [offset + i] of the
    native buffer to position [i] of the caller's buffer, and does not
    panic while both ranges are inside their slices. *)
Lemma copy_loop_spec cfr steps : forall (i : nat) (p : list byte),
  0 <= offset cfr -> fullSize cfr < 2 ^ 64 ->
  len (cBuffer cfr) = fullSize cfr ->
  offset cfr + Z.of_nat i + Z.of_nat steps <= fullSize cfr ->
  Z.of_nat i + Z.of_nat steps <= len p ->
  copy_loop cfr steps (Z.of_nat i) p =
    Some (take i p
          ++ take steps (drop (Z.to_nat (offset cfr) + i) (cBuffer cfr))
          ++ drop (i + steps) p).
Proof.
  induction steps as [|k IH]; intros i p Hoff Hfull Hbuf Hsrc Hdst.
  - cbn [copy_loop]. rewrite take_0, Nat.add_0_r. cbn [app].
    rewrite take_drop. reflexivity.
  - cbn [copy_loop]. unfold len in *.
    rewrite (uint64_small (offset cfr + Z.of_nat i)) by lia.
    unfold goSlice_at.
    replace ((0 <=? offset cfr + Z.of_nat i) &&
             (offset cfr + Z.of_nat i <? fullSize cfr)) with true
      by (symmetry; apply andb_true_iff; split; [apply Z.leb_le|apply Z.ltb_lt]; lia).
    replace (Z.to_nat (offset cfr + Z.of_nat i))
      with (Z.to_nat (offset cfr) + i)%nat by lia.
    destruct (lookup_lt_is_Some_2 (cBuffer cfr) (Z.to_nat (offset cfr) + i)%nat)
      as [b Hb]; [lia|].
    rewrite Hb. cbn [mbind option_bind]. unfold store, len.
    replace ((0 <=? Z.of_nat i) && (Z.of_nat i <? Z.of_nat (length p))) with true
      by (symmetry; apply andb_true_iff; split; [apply Z.leb_le|apply Z.ltb_lt]; lia).
    cbn [mbind option_bind]. rewrite Nat2Z.id.
    rewrite (uint64_small (Z.of_nat i + 1)) by lia.
    replace (Z.of_nat i + 1) with (Z.of_nat (S i)) by lia.
    rewrite IH; try assumption; unfold len; rewrite ?length_insert; try lia.
    f_equal.
    rewrite (take_S_r (<[i:=b]> p) i b)
      by (apply list_lookup_insert_eq; lia).
    rewrite take_insert_ge by lia.
    rewrite drop_insert_lt by lia.
    rewrite (drop_S (cBuffer cfr) b (Z.to_nat (offset cfr) + i)) by exact Hb.
    cbn [take]. rewrite <- app_assoc. cbn [app].
    replace (Z.to_nat (offset cfr) + S i)%nat
      with (S (Z.to_nat (offset cfr) + i)) by lia.
    replace (S i + k)%nat with (i + S k)%nat by lia.
    reflexivity.
Qed.

(** [Read] on an open reader and a buffer that is not empty. *)
Lemma Read_open cfr p :
  reader_inv cfr -> closed cfr = false -> 0 < len p <= max_int ->
  let k := Z.min (len p)
                 (Z.min (fullSize cfr - offset cfr) fileReaderBufferSize) in
  Read cfr p =
    Some (set_offset cfr (offset cfr + k),
          take (Z.to_nat k) (drop (Z.to_nat (offset cfr)) (cBuffer cfr))
            ++ drop (Z.to_nat k) p,
          (k, if offset cfr + k <? fullSize cfr then None else Some EOF)).
Proof.
  intros (Hoff & Hfull & Hbuf) Hopen Hp k.
  unfold max_int in Hp. unfold Read. rewrite Hopen.
  rewrite (uint64_small (len p)) by lia.
  destruct (Z.eqb_spec (len p) 0) as [E|_]; [lia|].
  rewrite (uint64_small fileReaderBufferSize) by (unfold fileReaderBufferSize; lia).
  rewrite (uint64_small (fullSize cfr - offset cfr)) by lia.
  set (toRead := if (if fileReaderBufferSize >? fullSize cfr - offset cfr
                     then fullSize cfr - offset cfr
                     else fileReaderBufferSize) >? len p
                 then len p
                 else if fileReaderBufferSize >? fullSize cfr - offset cfr
                      then fullSize cfr - offset cfr
                      else fileReaderBufferSize).
  assert (Hk : toRead = k).
  { subst toRead k.
    destruct (Z.gtb_spec fileReaderBufferSize (fullSize cfr - offset cfr));
      match goal with |- context [?a >? ?b] => destruct (Z.gtb_spec a b) end;
      lia. }
  rewrite Hk.
  assert (Hrange : 0 <= k <= fullSize cfr - offset cfr /\ k <= len p
                   /\ k <= fileReaderBufferSize).
  { subst k. unfold fileReaderBufferSize. lia. }
  destruct Hrange as (Hk0 & Hkp & Hkc). unfold fileReaderBufferSize in Hkc.
  pose proof (copy_loop_spec cfr (Z.to_nat k) 0%nat p) as Hcopy.
  change (Z.of_nat 0) with 0 in Hcopy. rewrite Hcopy by lia. clear Hcopy.
  cbn [mbind option_bind]. rewrite take_0, Nat.add_0_r. cbn [app Nat.add].
  cbn [set_offset offset fullSize].
  rewrite (uint64_small (offset cfr + k)) by lia.
  rewrite (int_small k) by lia.
  destruct (offset cfr + k <? fullSize cfr); reflexivity.
Qed.

(** [Read] with an empty buffer on an open reader. *)
Lemma Read_open_empty cfr :
  closed cfr = false -> Read cfr [] = Some (cfr, [], (0, None)).
Proof. intros Hopen. unfold Read. rewrite Hopen. reflexivity. Qed.

(** [Read] on a closed reader. *)
Lemma Read_closed cfr p :
  closed cfr = true -> Read cfr p = Some (cfr, p, (0, Some ErrClosedPipe)).
Proof. intros Hc. unfold Read. rewrite Hc. reflexivity. Qed.

(** C1: on an open reader that satisfies the data model's invariant, [Read]
    returns and copies [min(len(buffer), fullSize - offset, 1 MiB)] bytes,
    taken from the native buffer at [offset]; the count never exceeds the
    remaining [fullSize - offset] bytes. *)
Theorem Read_returns_min cfr p :
  reader_inv cfr -> closed cfr = false -> len p <= max_int ->
  let k := Z.min (len p)
                 (Z.min (fullSize cfr - offset cfr) (1 * 1024 * 1024)) in
  exists cfr' p' err,
    Read cfr p = Some (cfr', p', (k, err)) /\
    k <= fullSize cfr - offset cfr /\
    offset cfr' = offset cfr + k /\
    length p' = length p /\
    p' = take (Z.to_nat k) (drop (Z.to_nat (offset cfr)) (cBuffer cfr))
           ++ drop (Z.to_nat k) p.
Proof.
  intros Hinv Hopen Hp k.
  destruct p as [|b p].
  - assert (k = 0) as ->.
    { subst k. destruct Hinv as (? & ? & ?). unfold len. cbn [length]. lia. }
    exists cfr, [], None. rewrite Read_open_empty by exact Hopen.
    destruct Hinv as (? & ? & ?). repeat split; try lia; try reflexivity.
  - assert (0 < len (b :: p) <= max_int) as Hp'.
    { split; [unfold len; cbn [length]; lia | exact Hp]. }
    pose proof (Read_open cfr (b :: p) Hinv Hopen Hp') as HR.
    cbv zeta in HR. fold fileReaderBufferSize. fold fileReaderBufferSize in k.
    fold k in HR. rewrite HR.
    destruct Hinv as (Hoff & Hfull & Hbuf). unfold len in *.
    assert (0 <= k <= fullSize cfr - offset cfr /\ k <= Z.of_nat (length (b :: p)))
      as (Hk & Hkp) by (subst k; unfold fileReaderBufferSize; lia).
    eexists _, _, _. split; [reflexivity|].
    repeat split; try lia.
    rewrite length_app, length_take, length_drop, length_drop. lia.
Qed.

Lemma Read_returns_min_witness :
  exists cfr' p' err,
    Read Fixtures.sample_reader [x00; x00; x00] = Some (cfr', p', (3, err)) /\
    3 <= fullSize Fixtures.sample_reader - offset Fixtures.sample_reader /\
    offset cfr' = offset Fixtures.sample_reader + 3 /\
    length p' = length [x00; x00; x00] /\
    p' = [x01; x02; x03].
Proof.
  apply (Read_returns_min Fixtures.sample_reader [x00; x00; x00]).
  - cbv. intuition discriminate.
  - reflexivity.
  - cbv. discriminate.
Defined.

(** C2, as the code has it: on an open reader and a buffer that is not
    empty, [Read] reports end-of-stream exactly when [offset = fullSize]
    after the copy, in the call that returns the bytes; once
    [offset = fullSize] such a call returns no byte and end-of-stream and
    leaves the reader as it is.  With an empty buffer [Read] returns no
    byte and no error, whatever the offset. *)
Theorem Read_eof_nonempty cfr p :
  reader_inv cfr -> closed cfr = false -> len p <= max_int ->
  (p <> [] ->
   exists cfr' p' k err,
     Read cfr p = Some (cfr', p', (k, err)) /\
     offset cfr' = offset cfr + k /\
     (err = Some EOF <-> offset cfr' = fullSize cfr') /\
     (err = None <-> offset cfr' < fullSize cfr') /\
     (offset cfr = fullSize cfr -> k = 0 /\ cfr' = cfr /\ p' = p)) /\
  (p = [] -> Read cfr p = Some (cfr, p, (0, None))).
Proof.
  intros Hinv Hopen Hp. split.
  - intros Hne.
    assert (0 < len p <= max_int) as Hp'.
    { split; [|exact Hp]. destruct p; [congruence|]. unfold len. cbn [length]. lia. }
    pose proof (Read_open cfr p Hinv Hopen Hp') as HR. cbv zeta in HR.
    set (k := Z.min (len p) (Z.min (fullSize cfr - offset cfr) fileReaderBufferSize)) in *.
    destruct Hinv as (Hoff & Hfull & Hbuf).
    assert (0 <= k <= fullSize cfr - offset cfr) as Hk
      by (subst k; unfold fileReaderBufferSize; lia).
    eexists _, _, k, _. split; [exact HR|].
    cbn [set_offset offset fullSize].
    split; [reflexivity|].
    destruct (Z.ltb_spec (offset cfr + k) (fullSize cfr)) as [Hlt|Hge].
    + split; [split; [discriminate | lia]|].
      split; [split; [lia | reflexivity]|]. lia.
    + split; [split; [lia | reflexivity]|].
      split; [split; [discriminate | lia]|].
      intros Heq. assert (k = 0) as Hk0 by lia. split; [exact Hk0|].
      rewrite Hk0, Z.add_0_r, set_offset_same. split; [reflexivity|].
      cbn. rewrite drop_0. reflexivity.
  - intros ->. apply Read_open_empty. exact Hopen.
Qed.

Lemma Read_eof_nonempty_witness :
  (Fixtures.buf8 <> [] ->
   exists cfr' p' k err,
     Read Fixtures.exhausted_reader Fixtures.buf8 = Some (cfr', p', (k, err)) /\
     offset cfr' = offset Fixtures.exhausted_reader + k /\
     (err = Some EOF <-> offset cfr' = fullSize cfr') /\
     (err = None <-> offset cfr' < fullSize cfr') /\
     (offset Fixtures.exhausted_reader = fullSize Fixtures.exhausted_reader ->
      k = 0 /\ cfr' = Fixtures.exhausted_reader /\ p' = Fixtures.buf8)) /\
  (Fixtures.buf8 = [] ->
   Read Fixtures.exhausted_reader Fixtures.buf8 =
     Some (Fixtures.exhausted_reader, Fixtures.buf8, (0, None))).
Proof.
  apply (Read_eof_nonempty Fixtures.exhausted_reader Fixtures.buf8).
  - cbv. intuition discriminate.
  - reflexivity.
  - cbv. discriminate.
Defined.

(** C2, as stated, fails: the open reader that has delivered all five bytes
    of its file (the state the first call below leaves) has
    [offset = fullSize], and [Read] with an empty buffer reports no
    end-of-stream on it. *)
Lemma Read_empty_buffer_no_eof :
  Read Fixtures.sample_reader Fixtures.buf8 =
    Some (Fixtures.exhausted_reader,
          [x01; x02; x03; x04; x05; x00; x00; x00], (5, Some EOF)) /\
  closed Fixtures.exhausted_reader = false /\
  offset Fixtures.exhausted_reader = fullSize Fixtures.exhausted_reader /\
  Read Fixtures.exhausted_reader [] =
    Some (Fixtures.exhausted_reader, [], (0, None)).
Proof. repeat split. Qed.

(** C10: on a reader that is not closed, [Read] with a buffer of length zero
    returns 0 and no error, also when [offset = fullSize], and leaves the
    reader and the buffer as they are. *)
Theorem Read_zero_length cfr p :
  closed cfr = false -> len p = 0 ->
  Read cfr p = Some (cfr, p, (0, None)).
Proof.
  intros Hopen Hlen. destruct p as [|b p].
  - unfold Read. rewrite Hopen. reflexivity.
  - unfold len in Hlen. cbn [length] in Hlen. lia.
Qed.

Lemma Read_zero_length_witness :
  offset Fixtures.exhausted_reader = fullSize Fixtures.exhausted_reader /\
  Read Fixtures.exhausted_reader [] =
    Some (Fixtures.exhausted_reader, [], (0, None)).
Proof.
  split; [reflexivity|].
  apply (Read_zero_length Fixtures.exhausted_reader []); reflexivity.
Defined.

(** A closed reader is left as it is by every operation. *)
Lemma step_closed cfr log o :
  closed cfr = true -> step (cfr, log) o = Some (cfr, log).
Proof.
  intros Hc. destruct o as [p|]; cbn [step fst snd].
  - rewrite Read_closed by exact Hc. reflexivity.
  - unfold Close. rewrite Hc. reflexivity.
Qed.

Lemma run_closed ops : forall cfr log,
  closed cfr = true -> run ops (cfr, log) = Some (cfr, log).
Proof.
  induction ops as [|o ops IH]; intros cfr log Hc; cbn [run]; [reflexivity|].
  rewrite step_closed by exact Hc. cbn [mbind option_bind]. apply IH, Hc.
Qed.

Lemma Close_closed cfr log : closed (Close cfr log).1.1 = true.
Proof. unfold Close. destruct (closed cfr) eqn:E; cbn; [exact E | reflexivity]. Qed.

Lemma releases_snoc f log c :
  releases f (log ++ [c]) =
    (releases f log + (if is_file_free f c then 1 else 0))%nat.
Proof.
  unfold releases. rewrite List.filter_app, length_app. cbn [List.filter].
  destruct (is_file_free f c); reflexivity.
Qed.

(** C6: once [Close] has been called, every later [Read], whatever
    operations came in between, fails with the closed-stream error, leaves
    the caller's buffer as it was and leaves the reader, so also its offset,
    unchanged. *)
Theorem Read_after_Close cfr log ops p :
  let st := (Close cfr log).1 in
  run ops st = Some st /\
  Read st.1 p = Some (st.1, p, (0, Some ErrClosedPipe)) /\
  offset st.1 = offset cfr.
Proof.
  intros st. pose proof (Close_closed cfr log) as Hc. fold st in Hc.
  split; [|split].
  - destruct st as [c l] eqn:E. apply run_closed. exact Hc.
  - apply Read_closed. exact Hc.
  - subst st. unfold Close. destruct (closed cfr); reflexivity.
Qed.

(** C7: [Close] returns no error; the first call on an open reader appends
    exactly one [gp_file_free] of the reader's file object to the native
    log and sets [closed]; every further call changes neither the reader
    nor the log. *)
Theorem Close_idempotent cfr log n :
  let st := (Close cfr log).1 in
  (Close cfr log).2 = None /\
  closed st.1 = true /\
  st.2 = log ++ (if closed cfr then [] else [gp_file_free (cCameraFile cfr)]) /\
  releases (cCameraFile cfr) st.2 =
    (releases (cCameraFile cfr) log + (if closed cfr then 0 else 1))%nat /\
  Close st.1 st.2 = (st, None) /\
  run (replicate n OpClose) st = Some st.
Proof.
  intros st. pose proof (Close_closed cfr log) as Hc. fold st in Hc.
  assert (Hlog : st.2 = log ++ (if closed cfr then []
                                else [gp_file_free (cCameraFile cfr)])).
  { subst st. unfold Close. destruct (closed cfr); cbn; [|reflexivity].
    rewrite app_nil_r. reflexivity. }
  repeat split.
  - unfold Close. destruct (closed cfr); reflexivity.
  - exact Hc.
  - exact Hlog.
  - rewrite Hlog. destruct (closed cfr).
    + rewrite app_nil_r. lia.
    + rewrite releases_snoc. cbn [is_file_free]. rewrite Nat.eqb_refl. reflexivity.
  - unfold Close at 1. rewrite Hc. cbn [negb]. destruct st as [c l]. reflexivity.
  - destruct st as [c l]. apply run_closed. exact Hc.
Qed.

(** One operation keeps the invariant, never panics, never moves the offset
    back, never changes [fullSize] and never reopens the reader. *)
Lemma step_preserves cfr log o :
  reader_inv cfr -> op_ok o ->
  exists st', step (cfr, log) o = Some st' /\
    reader_inv st'.1 /\ offset cfr <= offset st'.1 /\
    fullSize st'.1 = fullSize cfr /\
    (closed cfr = true -> closed st'.1 = true).
Proof.
  intros Hinv Hok. destruct (closed cfr) eqn:Hc.
  - exists (cfr, log). rewrite step_closed by exact Hc.
    cbn [fst]. repeat split; try apply Hinv; try lia; try (intros _; exact Hc).
  - destruct o as [p|].
    + cbn [step fst snd]. destruct p as [|b p].
      * rewrite Read_open_empty by exact Hc. cbn.
        eexists. split; [reflexivity|]. cbn [fst].
        repeat split; try apply Hinv; try lia; try discriminate.
      * assert (0 < len (b :: p) <= max_int) as Hp.
        { split; [unfold len; cbn [length]; lia | exact Hok]. }
        rewrite (Read_open cfr (b :: p) Hinv Hc Hp). cbn [mbind option_bind fst snd].
        eexists. split; [reflexivity|]. cbn [fst].
        destruct Hinv as (Hoff & Hfull & Hbuf).
        unfold reader_inv, fileReaderBufferSize. cbn [set_offset offset fullSize cBuffer closed].
        unfold len in *. repeat split; try lia; try discriminate.
    + cbn [step fst snd]. unfold Close. rewrite Hc. cbn [negb fst].
      eexists. split; [reflexivity|]. cbn [fst].
      unfold reader_inv. cbn [set_closed offset fullSize cBuffer closed].
      destruct Hinv as (Hoff & Hfull & Hbuf). repeat split; try lia; try assumption.
Qed.

(** A sequence of operations never panics and keeps the invariant, the
    total size and the native buffer. *)
Lemma run_preserves ops : forall cfr log,
  reader_inv cfr -> Forall op_ok ops ->
  exists st, run ops (cfr, log) = Some st /\
    reader_inv st.1 /\ offset cfr <= offset st.1 /\
    fullSize st.1 = fullSize cfr /\
    (closed cfr = true -> closed st.1 = true).
Proof.
  induction ops as [|o ops IH]; intros cfr log Hinv Hall.
  - exists (cfr, log). cbn. repeat split; try apply Hinv; try lia; auto.
  - inversion Hall as [|? ? Ho Hops]; subst.
    destruct (step_preserves cfr log o Hinv Ho)
      as ([c1 l1] & Hs & Hi1 & Hmono1 & Hfull1 & Hcl1).
    cbn [fst] in *.
    destruct (IH c1 l1 Hi1 Hops) as (st & Hr & Hi & Hmono & Hfull & Hcl).
    exists st. cbn [run]. rewrite Hs. cbn [mbind option_bind].
    split; [exact Hr|]. repeat split; try apply Hi; try lia; auto.
Qed.

Lemma FileReader_inv folder fileName h data :
  len data < 2 ^ 64 -> reader_inv (FileReader folder fileName h data).
Proof.
  intros Hlen. unfold reader_inv, FileReader. cbn [offset fullSize cBuffer].
  pose proof (len_nonneg data). rewrite uint64_small by lia. lia.
Qed.

(** C8: a reader starts at offset 0 inside the invariant
    [0 <= offset <= fullSize]; after any sequence of [Read] and [Close]
    calls the invariant holds and [fullSize] is the size set at open time,
    and any further operation keeps the invariant, does not decrease
    [offset], does not change [fullSize] and does not reset [closed]. *)
Theorem reader_invariant folder fileName h data ops :
  len data < 2 ^ 64 -> Forall op_ok ops ->
  let cfr0 := FileReader folder fileName h data in
  offset cfr0 = 0 /\ closed cfr0 = false /\ reader_inv cfr0 /\
  exists st, run ops (cfr0, []) = Some st /\
    0 <= offset st.1 <= fullSize st.1 /\
    fullSize st.1 = fullSize cfr0 /\
    forall o, op_ok o ->
      exists st', step st o = Some st' /\
        0 <= offset st'.1 <= fullSize st'.1 /\
        offset st.1 <= offset st'.1 /\
        fullSize st'.1 = fullSize st.1 /\
        (closed st.1 = true -> closed st'.1 = true).
Proof.
  intros Hlen Hall cfr0.
  pose proof (FileReader_inv folder fileName h data Hlen) as Hinv0.
  fold cfr0 in Hinv0.
  split; [reflexivity|]. split; [reflexivity|]. split; [exact Hinv0|].
  destruct (run_preserves ops cfr0 [] Hinv0 Hall)
    as ([c l] & Hr & Hi & _ & Hfull & _).
  exists (c, l). split; [exact Hr|]. cbn [fst] in *.
  split; [apply Hi|]. split; [exact Hfull|].
  intros o Ho.
  destruct (step_preserves c l o Hi Ho) as (st' & Hs & Hi' & Hm & Hf & Hc).
  exists st'. split; [exact Hs|]. split; [apply Hi'|]. auto.
Qed.

Lemma reader_invariant_witness :
  let cfr0 := Fixtures.sample_reader in
  offset cfr0 = 0 /\ closed cfr0 = false /\ reader_inv cfr0 /\
  exists st,
    run [OpRead [x00; x00]; OpRead []; OpClose; OpRead Fixtures.buf8]
        (cfr0, []) = Some st /\
    0 <= offset st.1 <= fullSize st.1 /\
    fullSize st.1 = fullSize cfr0 /\
    forall o, op_ok o ->
      exists st', step st o = Some st' /\
        0 <= offset st'.1 <= fullSize st'.1 /\
        offset st.1 <= offset st'.1 /\
        fullSize st'.1 = fullSize st.1 /\
        (closed st.1 = true -> closed st'.1 = true).
Proof.
  apply (reader_invariant "/store_00010001/DCIM" "IMG_0001.JPG" 7%nat
           Fixtures.sample_data
           [OpRead [x00; x00]; OpRead []; OpClose; OpRead Fixtures.buf8]).
  - cbv. reflexivity.
  - repeat constructor; cbv; discriminate.
Defined.

End ReaderProofs.

(** * Properties of the recursive folder listing *)

Section PathProofs.

Import Listing.

Lemma HasSuffix_sep s : HasSuffix s "/" = ends_with_sep s.
Proof.
  unfold HasSuffix. induction s as [|c s IH]; [reflexivity|].
  destruct s as [|c' s'].
  - cbn. unfold is_sep. destruct (Ascii.eqb c "/"); reflexivity.
  - change (ends_with_sep (String c (String c' s')))
      with (ends_with_sep (String c' s')).
    rewrite <- IH. cbn [String.length].
    cbn [Nat.leb Nat.sub substring]. rewrite !Nat.sub_0_r. reflexivity.
Qed.

Lemma list_path_cases folder :
  (ends_with_sep folder = true /\ list_path folder = folder) \/
  (ends_with_sep folder = false /\ list_path folder = (folder +:+ "/")%string).
Proof.
  unfold list_path. rewrite HasSuffix_sep.
  destruct (ends_with_sep folder); [left | right]; split; reflexivity.
Qed.

Lemma ends_with_sep_app a c b :
  ends_with_sep (a +:+ String c b) = ends_with_sep (String c b).
Proof.
  induction a as [|x a IH]; [reflexivity|].
  destruct a as [|y a]; [reflexivity | exact IH].
Qed.

Lemma list_path_ends folder : ends_with_sep (list_path folder) = true.
Proof.
  destruct (list_path_cases folder) as [[He ->]|[He ->]]; [exact He|].
  apply ends_with_sep_app.
Qed.

Lemma starts_with_sep_app a b :
  starts_with_sep (a +:+ b) =
    match a with EmptyString => starts_with_sep b | _ => starts_with_sep a end.
Proof. destruct a; reflexivity. Qed.

Lemma double_sep_app a b :
  double_sep (a +:+ b) =
    double_sep a || double_sep b || (ends_with_sep a && starts_with_sep b).
Proof.
  induction a as [|x a IH].
  - cbn. rewrite orb_false_r. reflexivity.
  - change (double_sep (String x a +:+ b))
      with ((is_sep x && starts_with_sep (a +:+ b)) || double_sep (a +:+ b)).
    change (double_sep (String x a))
      with ((is_sep x && starts_with_sep a) || double_sep a).
    rewrite IH, starts_with_sep_app. destruct a as [|y a].
    + cbn. destruct (is_sep x), (starts_with_sep b), (double_sep b); reflexivity.
    + change (ends_with_sep (String x (String y a)))
        with (ends_with_sep (String y a)).
      cbn [starts_with_sep].
      destruct (is_sep x), (is_sep y), (double_sep (String y a)),
        (double_sep b), (ends_with_sep (String y a)), (starts_with_sep b);
        reflexivity.
Qed.

Lemma name_ok_spec sub :
  name_ok sub = true ->
  sub <> EmptyString /\ starts_with_sep sub = false /\
  double_sep sub = false /\ ends_with_sep sub = false.
Proof.
  unfold name_ok. intros H. apply andb_true_iff in H as [Hne Hs].
  apply negb_true_iff in Hne, Hs.
  split; [intros ->; discriminate|]. clear Hne.
  induction sub as [|c s IH]; [repeat split|].
  cbn [has_sep] in Hs. apply orb_false_iff in Hs as [Hc Hs].
  specialize (IH Hs) as (IH1 & IH2 & IH3).
  cbn [starts_with_sep double_sep]. rewrite Hc, IH2. cbn.
  repeat split. destruct s; [exact Hc | exact IH3].
Qed.

(** Appending a well-formed name to a listed path that holds no doubled
    separator gives a path with no doubled separator that does not end
    with one. *)
Lemma join_no_double folder sub :
  double_sep folder = false -> name_ok sub = true ->
  double_sep (list_path folder +:+ sub) = false /\
  ends_with_sep (list_path folder +:+ sub) = false.
Proof.
  intros Hd Hn. destruct (name_ok_spec sub Hn) as (Hne & Hst & Hds & Hes).
  split.
  - rewrite double_sep_app, Hds, Hst, andb_false_r, !orb_false_r.
    destruct (list_path_cases folder) as [[He ->]|[He ->]]; [exact Hd|].
    rewrite double_sep_app, Hd, He. reflexivity.
  - destruct sub as [|c s]; [congruence|]. rewrite ends_with_sep_app. exact Hes.
Qed.

End PathProofs.

Section ListingProofs.

Import Listing.

Variable gp_result_as_string : Z -> string.
Variable gp_camera_folder_list_folders : string -> Z * CameraList.
Variable range_keys : gmap string string -> list string.

Local Abbreviation ListFolders :=
  (Listing.ListFolders gp_result_as_string gp_camera_folder_list_folders
     range_keys).
Local Abbreviation RListFolders :=
  (Listing.RListFolders gp_result_as_string gp_camera_folder_list_folders
     range_keys).
Local Abbreviation finite_below :=
  (Listing.finite_below gp_result_as_string gp_camera_folder_list_folders
     range_keys).
Local Abbreviation returns :=
  (Listing.returns gp_result_as_string gp_camera_folder_list_folders
     range_keys).

Lemma sub_loop_spec rec path subfolders : forall folders out,
  sub_loop rec path subfolders folders = Some out <->
  exists outs,
    Forall2 (fun sub r => rec (path +:+ sub)%string = Some r) subfolders outs /\
    out = folders ++ appended path subfolders outs.
Proof.
  induction subfolders as [|sub rest IH]; intros folders out; cbn [sub_loop].
  - split.
    + intros [= <-]. exists []. split; [constructor|].
      unfold appended. cbn. rewrite app_nil_r. reflexivity.
    + intros (outs & HF & ->). inversion HF; subst.
      unfold appended. cbn. rewrite app_nil_r. reflexivity.
  - split.
    + destruct (rec (path +:+ sub)%string) as [r|] eqn:Hr;
        cbn [mbind option_bind]; [|discriminate].
      intros H. apply IH in H as (outs & HF & ->).
      exists (r :: outs). split; [constructor; assumption|].
      unfold appended. cbn [zip_with concat].
      rewrite <- !app_assoc. reflexivity.
    + intros (outs & HF & ->). inversion HF as [|? r ? outs' Hr HF']; subst.
      rewrite Hr. cbn [mbind option_bind]. apply IH.
      exists outs'. split; [exact HF'|].
      unfold appended. cbn [zip_with concat].
      rewrite <- !app_assoc. reflexivity.
Qed.

Lemma RListFolders_S fuel folder :
  RListFolders (S fuel) folder =
    sub_loop (RListFolders fuel) (list_path folder)
             (ListFolders (list_path folder)).1 [].
Proof.
  cbn [Listing.RListFolders]. fold (list_path folder).
  destruct (ListFolders (list_path folder)) as [subfolders err]. reflexivity.
Qed.

(** More fuel does not change a result. *)
Lemma RListFolders_S_mono fuel : forall folder out,
  RListFolders fuel folder = Some out ->
  RListFolders (S fuel) folder = Some out.
Proof.
  induction fuel as [|fuel IH]; intros folder out H; [discriminate|].
  rewrite RListFolders_S in *.
  apply sub_loop_spec in H as (outs & HF & ->).
  apply sub_loop_spec. exists outs. split; [|reflexivity].
  eapply Forall2_impl; [exact HF|]. cbv beta. intros sub r Hr. apply IH, Hr.
Qed.

Lemma RListFolders_mono fuel fuel' folder out :
  (fuel <= fuel')%nat ->
  RListFolders fuel folder = Some out ->
  RListFolders fuel' folder = Some out.
Proof.
  induction 1 as [|m Hle IH]; intros H; [exact H|].
  apply RListFolders_S_mono, IH, H.
Qed.

Lemma returns_of_fuel fuel folder out :
  RListFolders fuel folder = Some out -> returns folder out.
Proof.
  intros H. exists fuel. intros fuel' Hle.
  eapply RListFolders_mono; [exact Hle | exact H].
Qed.

(** Calls that each return can share one amount of fuel. *)
Lemma common_fuel path subfolders :
  (forall sub, sub ∈ subfolders ->
     exists fuel r, RListFolders fuel (path +:+ sub)%string = Some r) ->
  exists fuel outs,
    Forall2 (fun sub r => RListFolders fuel (path +:+ sub)%string = Some r)
            subfolders outs.
Proof.
  induction subfolders as [|sub rest IH]; intros H.
  - exists 0%nat, []. constructor.
  - destruct (H sub) as (f1 & r & Hr); [left|].
    destruct IH as (f2 & outs & HF).
    { intros s Hs. apply H. right. exact Hs. }
    exists (Nat.max f1 f2), (r :: outs). constructor.
    + eapply RListFolders_mono; [|exact Hr]. lia.
    + eapply Forall2_impl; [exact HF|]. cbv beta. intros s r' Hs.
      eapply RListFolders_mono; [|exact Hs]. lia.
Qed.

(** Over a finite tree of listings the call returns. *)
Lemma finite_below_returns path :
  finite_below path ->
  forall folder, list_path folder = path ->
  exists fuel out, RListFolders fuel folder = Some out.
Proof.
  induction 1 as [path _ IH]. intros folder Hp.
  destruct (common_fuel path (ListFolders path).1) as (fuel & outs & HF).
  { intros sub Hsub. apply (IH sub Hsub (path +:+ sub)%string). reflexivity. }
  exists (S fuel), (appended path (ListFolders path).1 outs).
  rewrite RListFolders_S, Hp. apply sub_loop_spec.
  exists outs. split; [exact HF | reflexivity].
Qed.

(** The shape of a result: the subfolders of the listed path in the order
    [ListFolders] gave them, each followed by the result of its own call. *)
Lemma returns_structure folder out :
  returns folder out ->
  exists outs,
    Forall2 (fun sub r => returns (list_path folder +:+ sub)%string r)
            (ListFolders (list_path folder)).1 outs /\
    out = appended (list_path folder) (ListFolders (list_path folder)).1 outs.
Proof.
  intros (fuel & H). specialize (H (S fuel) (Nat.le_succ_diag_r fuel)).
  rewrite RListFolders_S in H. apply sub_loop_spec in H as (outs & HF & ->).
  exists outs. split; [|reflexivity].
  eapply Forall2_impl; [exact HF|]. cbv beta. intros sub r Hr.
  eapply returns_of_fuel, Hr.
Qed.

Lemma returns_unique folder out1 out2 :
  returns folder out1 -> returns folder out2 -> out1 = out2.
Proof.
  intros (f1 & H1) (f2 & H2).
  specialize (H1 (Nat.max f1 f2) (Nat.le_max_l f1 f2)).
  specialize (H2 (Nat.max f1 f2) (Nat.le_max_r f1 f2)).
  congruence.
Qed.

(** A failing [ListFolders] hands back no name. *)
Lemma ListFolders_error path :
  (ListFolders path).2 <> None -> (ListFolders path).1 = [].
Proof.
  unfold Listing.ListFolders.
  destruct (gp_camera_folder_list_folders _) as [rc l].
  destruct (cameraResultToError gp_result_as_string rc); [reflexivity|].
  destruct (cameraListToMap l). cbn. congruence.
Qed.

Lemma returns_error folder out :
  returns folder out -> (ListFolders (list_path folder)).2 <> None -> out = [].
Proof.
  intros Hr He. apply returns_structure in Hr as (outs & HF & ->).
  rewrite (ListFolders_error _ He) in *. inversion HF. reflexivity.
Qed.

(** With well-formed names, a folder without doubled separators yields only
    paths without doubled separators that do not end with one. *)
Lemma RListFolders_separators fuel : forall folder out,
  (forall p sub, sub ∈ (ListFolders p).1 -> name_ok sub = true) ->
  double_sep folder = false ->
  RListFolders fuel folder = Some out ->
  Forall (fun p => double_sep p = false /\ ends_with_sep p = false) out.
Proof.
  induction fuel as [|fuel IH]; intros folder out Hnames Hd H; [discriminate|].
  rewrite RListFolders_S in H. apply sub_loop_spec in H as (outs & HF & ->).
  cbn [app]. unfold appended.
  assert (Hsubs : forall sub, sub ∈ (ListFolders (list_path folder)).1 ->
                              name_ok sub = true) by (intros; eapply Hnames; eauto).
  revert HF Hsubs. generalize (ListFolders (list_path folder)).1.
  intros subs HF. induction HF as [|sub r subs outs Hr HF IHF]; intros Hsubs.
  - constructor.
  - cbn [zip_with concat].
    destruct (join_no_double folder sub Hd) as [Hj1 Hj2].
    { apply Hsubs. left. }
    constructor; [split; assumption|].
    apply Forall_app. split.
    + eapply IH; [exact Hnames | exact Hj1 | exact Hr].
    + apply IHF. intros s Hs. apply Hsubs. right. exact Hs.
Qed.

(** C4, as the code has it: over a finite tree of listings [RListFolders]
    returns the depth-first pre-order listing, in which the path of each
    direct subfolder is followed at once by the result of the recursive
    call on it, before the path of the next direct subfolder.  The listed
    path ends with one separator that is added only when the folder does
    not already end with one, each produced path is the listed path
    followed by a name, and when the names are well formed and the folder
    holds no doubled separator no produced path holds one. *)
Theorem RListFolders_preorder folder :
  finite_below (list_path folder) ->
  let path := list_path folder in
  let subfolders := (ListFolders path).1 in
  exists out outs,
    returns folder out /\
    Forall2 (fun sub r => returns (path +:+ sub)%string r) subfolders outs /\
    out = appended path subfolders outs /\
    ends_with_sep path = true /\
    (ends_with_sep folder = true -> path = folder) /\
    (ends_with_sep folder = false -> path = (folder +:+ "/")%string) /\
    ((forall p sub, sub ∈ (ListFolders p).1 -> name_ok sub = true) ->
     double_sep folder = false ->
     Forall (fun p => double_sep p = false /\ ends_with_sep p = false) out).
Proof.
  intros Hfin path subfolders.
  destruct (finite_below_returns path Hfin folder eq_refl) as (fuel & out & Hout).
  pose proof (returns_of_fuel fuel folder out Hout) as Hret.
  destruct (returns_structure folder out Hret) as (outs & HF & Heq).
  exists out, outs. split; [exact Hret|]. split; [exact HF|].
  split; [exact Heq|]. split; [apply list_path_ends|].
  destruct (list_path_cases folder) as [[He Hp]|[He Hp]].
  - split; [intros _; exact Hp|]. split; [congruence|].
    intros Hn Hd. eapply RListFolders_separators; eauto.
  - split; [congruence|]. split; [intros _; exact Hp|].
    intros Hn Hd. eapply RListFolders_separators; eauto.
Qed.

(** C5: [RListFolders] hands back a list and no error.  Over a finite tree
    of listings it returns; when [ListFolders] fails for the folder itself
    the result is empty; when it fails for a subfolder, that subfolder
    contributes its own path and nothing below it, and the other
    subfolders are listed all the same. *)
Theorem RListFolders_swallows_errors folder :
  finite_below (list_path folder) ->
  let path := list_path folder in
  exists out outs,
    returns folder out /\
    ((ListFolders path).2 <> None -> out = []) /\
    Forall2 (fun sub r =>
               returns (path +:+ sub)%string r /\
               ((ListFolders (list_path (path +:+ sub))).2 <> None -> r = []))
            (ListFolders path).1 outs /\
    out = appended path (ListFolders path).1 outs.
Proof.
  intros Hfin path.
  destruct (finite_below_returns path Hfin folder eq_refl) as (fuel & out & Hout).
  pose proof (returns_of_fuel fuel folder out Hout) as Hret.
  destruct (returns_structure folder out Hret) as (outs & HF & Heq).
  exists out, outs. split; [exact Hret|].
  split; [apply returns_error; exact Hret|]. split; [|exact Heq].
  eapply Forall2_impl; [exact HF|]. cbv beta. intros sub r Hr.
  split; [exact Hr|]. apply returns_error. exact Hr.
Qed.

End ListingProofs.

Section ListingExamples.

Import Listing Fixtures.

Lemma finite_below_of_list rs native range path l :
  (ListFolders rs native range path).1 = l ->
  Forall (fun sub => finite_below rs native range (list_path (path +:+ sub))) l ->
  finite_below rs native range path.
Proof.
  intros Hl Hall. constructor. rewrite Hl. intros sub Hsub.
  rewrite Forall_forall in Hall. apply Hall, Hsub.
Qed.

Ltac finite_tree :=
  repeat first
    [ apply Forall_nil_2
    | apply Forall_cons_2
    | eapply finite_below_of_list; [vm_compute; reflexivity|] ].

Lemma storage_finite :
  finite_below result_text storage range_order (list_path "/").
Proof. finite_tree. Qed.

Lemma faulty_storage_finite :
  finite_below result_text faulty_storage range_order (list_path "/").
Proof. finite_tree. Qed.

Lemma storage_names_ok p sub :
  sub ∈ (ListFolders result_text storage range_order p).1 -> name_ok sub = true.
Proof.
  unfold ListFolders, storage.
  repeat match goal with
         | |- context [String.eqb ?a ?b] => destruct (String.eqb a b)
         end;
    vm_compute; intros H;
    repeat (inversion H as [|? ? ? H']; subst; try reflexivity;
            clear H; rename H' into H).
Qed.

(** The listing of the sample storage: in the order [range] visits the
    names, [/c] with what lies below it, then [/a] with what lies below
    it. *)
Example RListFolders_storage :
  ListFolders result_text storage range_order "/" = (["c"; "a"]%string, None) /\
  RListFolders result_text storage range_order 3 "/" =
    Some ["/c"; "/c/d"; "/a"; "/a/b"]%string /\
  RListFolders result_text storage range_order 2 "/" = None.
Proof. repeat split. Qed.

(** The same when listing [/a/] fails: [/a] is listed, nothing below it,
    and no error comes back. *)
Example RListFolders_faulty_storage :
  ListFolders result_text faulty_storage range_order "/a/" =
    ([], Some (Errorf "I/O problem")) /\
  RListFolders result_text faulty_storage range_order 3 "/" =
    Some ["/c"; "/c/d"; "/a"]%string /\
  RListFolders result_text faulty_storage range_order 3 "/a" = Some [] /\
  RListFolders result_text storage range_order 3 "/a" = Some ["/a/b"%string].
Proof. repeat split. Qed.

Lemma RListFolders_preorder_witness :
  finite_below result_text storage range_order (list_path "/") /\
  exists out outs,
    returns result_text storage range_order "/" out /\
    Forall2 (fun sub r =>
               returns result_text storage range_order
                       (list_path "/" +:+ sub)%string r)
            (ListFolders result_text storage range_order (list_path "/")).1
            outs /\
    out = appended (list_path "/")
            (ListFolders result_text storage range_order (list_path "/")).1
            outs /\
    ends_with_sep (list_path "/") = true /\
    list_path "/" = "/"%string /\
    Forall (fun p => double_sep p = false /\ ends_with_sep p = false) out.
Proof.
  split; [exact storage_finite|].
  destruct (RListFolders_preorder result_text storage range_order "/"
              storage_finite)
    as (out & outs & Hret & HF & Heq & Hend & Hsame & _ & Hsep).
  exists out, outs. repeat split; try assumption.
  apply Hsep; [exact storage_names_ok | reflexivity].
Defined.

(** C4, as stated, fails: the direct subfolders of [/] are [/c] and [/a],
    and [/a] is appended after [/c/d], which is the result of the recursive
    call on [/c]; the output is not the two direct subfolders followed by
    the results of the recursive calls. *)
Lemma RListFolders_not_all_direct_first :
  (ListFolders result_text storage range_order "/").1 = ["c"; "a"]%string /\
  RListFolders result_text storage range_order 3 "/c" = Some ["/c/d"%string] /\
  RListFolders result_text storage range_order 3 "/a" = Some ["/a/b"%string] /\
  RListFolders result_text storage range_order 3 "/" =
    Some ["/c"; "/c/d"; "/a"; "/a/b"]%string /\
  RListFolders result_text storage range_order 3 "/" <>
    Some (direct_subfolders_first "/" ["c"; "a"]
            [["/c/d"]; ["/a/b"]])%string.
Proof. repeat split. discriminate. Qed.

Lemma RListFolders_swallows_errors_witness :
  finite_below result_text faulty_storage range_order (list_path "/") /\
  exists out outs,
    returns result_text faulty_storage range_order "/" out /\
    ((ListFolders result_text faulty_storage range_order (list_path "/")).2
       <> None -> out = []) /\
    Forall2 (fun sub r =>
               returns result_text faulty_storage range_order
                       (list_path "/" +:+ sub)%string r /\
               ((ListFolders result_text faulty_storage range_order
                   (list_path (list_path "/" +:+ sub))).2 <> None -> r = []))
            (ListFolders result_text faulty_storage range_order
               (list_path "/")).1 outs /\
    out = appended (list_path "/")
            (ListFolders result_text faulty_storage range_order
               (list_path "/")).1 outs.
Proof.
  split; [exact faulty_storage_finite|].
  apply (RListFolders_swallows_errors result_text faulty_storage range_order
           "/" faulty_storage_finite).
Defined.

End ListingExamples.

(** * Properties of the event wait *)

Section EventProofs.

Import Events.

Variable GP_EVENT_FILE_ADDED : Z.

Lemma recv_drained k :
  recv_many (S k) (mkChan [] false) = ([BlocksForever], mkChan [] false).
Proof. reflexivity. Qed.

(** C3, as the code has it: when the native wait hands back an event whose
    payload the conversion can read, the goroutine sends exactly one
    [CameraEvent], the conversion of what the native wait stored, and then
    ends without closing the channel: the first receive gets the event,
    every further receive blocks forever, and the channel stays open. *)
Theorem AsyncWaitForEvent_one_event timeout eventType vp k :
  (eventType = GP_EVENT_FILE_ADDED -> is_Some vp) ->
  exists e,
    cCameraEventToGoCameraEvent GP_EVENT_FILE_ADDED vp eventType = Some e /\
    Type_ e = eventType /\
    (eventType <> GP_EVENT_FILE_ADDED -> Folder e = ""%string /\ File e = ""%string) /\
    recv_many 1 (AsyncWaitForEvent GP_EVENT_FILE_ADDED timeout eventType vp)
      = ([Value e], mkChan [] false) /\
    recv_many (S (S k))
        (AsyncWaitForEvent GP_EVENT_FILE_ADDED timeout eventType vp)
      = ([Value e; BlocksForever], mkChan [] false).
Proof.
  intros Hvp.
  assert (exists e,
    cCameraEventToGoCameraEvent GP_EVENT_FILE_ADDED vp eventType = Some e /\
    Type_ e = eventType /\
    (eventType <> GP_EVENT_FILE_ADDED -> Folder e = ""%string /\ File e = ""%string))
    as (e & He & Hty & Hempty).
  { unfold cCameraEventToGoCameraEvent, EventFileAdded. cbn [Type_ Folder File].
    destruct (Z.eqb_spec eventType GP_EVENT_FILE_ADDED) as [Heq|Hne].
    - destruct (Hvp Heq) as [c ->]. cbn [mbind option_bind].
      eexists. split; [reflexivity|]. split; [reflexivity|]. congruence.
    - eexists. split; [reflexivity|]. split; [reflexivity|]. intros _. split; reflexivity. }
  exists e. split; [exact He|]. split; [exact Hty|]. split; [exact Hempty|].
  unfold AsyncWaitForEvent, wait_goroutine. rewrite He. split.
  - reflexivity.
  - change (recv_many (S (S k)) (mkChan [Send e] false))
      with (let '(rs, ch) := recv_many (S k) (mkChan [] false) in (Value e :: rs, ch)).
    rewrite recv_drained. reflexivity.
Qed.

End EventProofs.

Lemma AsyncWaitForEvent_one_event_witness :
  exists e,
    Events.cCameraEventToGoCameraEvent 2 (Some Fixtures.added_path) 2 = Some e /\
    Events.Type_ e = 2 /\
    (2 <> 2 -> Events.Folder e = ""%string /\ Events.File e = ""%string) /\
    Events.recv_many 1
        (Events.AsyncWaitForEvent 2 5000 2 (Some Fixtures.added_path))
      = ([Events.Value e], Events.mkChan [] false) /\
    Events.recv_many 3
        (Events.AsyncWaitForEvent 2 5000 2 (Some Fixtures.added_path))
      = ([Events.Value e; Events.BlocksForever], Events.mkChan [] false).
Proof.
  apply (AsyncWaitForEvent_one_event 2 5000 2 (Some Fixtures.added_path) 1).
  intros _. exists Fixtures.added_path. reflexivity.
Defined.

(** C3, as stated, fails: after the one event a receive does not find the
    channel closed; it blocks, for a file-added event and for a timeout
    alike. *)
Lemma AsyncWaitForEvent_not_closed :
  Events.recv_many 3
      (Events.AsyncWaitForEvent 2 5000 2 (Some Fixtures.added_path))
    = ([Events.Value
          (Events.mkEvent 2 "/store_00010001/DCIM" "IMG_0002.JPG");
        Events.BlocksForever],
       Events.mkChan [] false) /\
  Events.recv_many 2 (Events.AsyncWaitForEvent 2 5000 1 None)
    = ([Events.Value (Events.mkEvent 1 "" ""); Events.BlocksForever],
       Events.mkChan [] false) /\
  (Events.recv_many 2 (Events.AsyncWaitForEvent 2 5000 1 None)).1
    <> [Events.Value (Events.mkEvent 1 "" ""); Events.ClosedChannel].
Proof. repeat split. discriminate. Qed.

(** * Properties of the configuration fetch *)

Section ConfigProofs.

Import Config.

Variable gp_result_as_string : Z -> string.

Lemma filter_absent (w : handle) (live : list handle) :
  w ∉ live -> List.filter (fun x => negb (Nat.eqb x w)) live = live.
Proof.
  induction live as [|x live IH]; intros Hw; [reflexivity|].
  apply not_elem_of_cons in Hw as [Hne Hw]. cbn [List.filter].
  destruct (Nat.eqb_spec x w) as [->|_]; [congruence|].
  cbn [negb]. rewrite IH by exact Hw. reflexivity.
Qed.

(** C9: [GetConfig] first calls [gp_widget_new], then
    [gp_camera_get_config]; when the first succeeds and the second fails it
    calls [gp_widget_free] on the root widget and then returns that error
    and no widget.  Every error return leaves allocated exactly the widgets
    that were allocated before the call; a success returns the new root
    widget, still allocated. *)
Theorem GetConfig_frees_root_on_failure fresh rc_new rc_get log live :
  fresh ∉ live ->
  exists calls,
    (GetConfig gp_result_as_string fresh rc_new rc_get log).2 = log ++ calls /\
    (rc_new = 0 -> rc_get <> 0 ->
     GetConfig gp_result_as_string fresh rc_new rc_get log =
       (None, Some (Errorf (gp_result_as_string rc_get)), log ++ calls) /\
     calls = [gp_widget_new 0 (Some fresh);
              gp_camera_get_config rc_get (Some fresh);
              gp_widget_free (Some fresh)]) /\
    ((GetConfig gp_result_as_string fresh rc_new rc_get log).1.2 <> None ->
     (GetConfig gp_result_as_string fresh rc_new rc_get log).1.1 = None /\
     live_widgets calls live = live) /\
    ((GetConfig gp_result_as_string fresh rc_new rc_get log).1.2 = None ->
     (GetConfig gp_result_as_string fresh rc_new rc_get log).1.1 =
       Some (mkWidget (Some fresh)) /\
     live_widgets calls live = fresh :: live).
Proof.
  intros Hfresh. unfold GetConfig, Free, cameraResultToError,
    widget_new_out, get_config_out. cbn [widget].
  destruct (Z.eqb_spec rc_new 0) as [->|Hnew]; cbn [negb widget].
  - destruct (Z.eqb_spec rc_get 0) as [->|Hget]; cbn [negb].
    + exists [gp_widget_new 0 (Some fresh); gp_camera_get_config 0 (Some fresh)].
      cbn [fst snd]. rewrite <- app_assoc. cbn [app].
      split; [reflexivity|]. split; [congruence|].
      split; [congruence|]. intros _. split; reflexivity.
    + exists [gp_widget_new 0 (Some fresh);
              gp_camera_get_config rc_get (Some fresh);
              gp_widget_free (Some fresh)].
      cbn [fst snd]. rewrite <- !app_assoc. cbn [app].
      split; [reflexivity|]. split; [intros _ _; split; reflexivity|].
      split; [|congruence]. intros _. split; [reflexivity|].
      cbn [live_widgets Z.eqb List.filter]. rewrite Nat.eqb_refl. cbn [negb].
      apply filter_absent, Hfresh.
  - exists [gp_widget_new rc_new None; C_free None].
    cbn [fst snd]. rewrite <- app_assoc. cbn [app].
    split; [reflexivity|]. split; [congruence|].
    split; [|congruence]. intros _. split; reflexivity.
Qed.

End ConfigProofs.

Lemma GetConfig_frees_root_on_failure_witness :
  (4%nat ∉ [3%nat]) /\
  Config.GetConfig Fixtures.result_text 4%nat 0 (-7) [] =
    (None, Some (Errorf "I/O problem"),
     [gp_widget_new 0 (Some 4%nat); gp_camera_get_config (-7) (Some 4%nat);
      gp_widget_free (Some 4%nat)]) /\
  live_widgets
    [gp_widget_new 0 (Some 4%nat); gp_camera_get_config (-7) (Some 4%nat);
     gp_widget_free (Some 4%nat)] [3%nat] = [3%nat].
Proof.
  assert (H : 4%nat ∉ [3%nat]).
  { intros Hin. apply list_elem_of_singleton in Hin. discriminate. }
  split; [exact H|].
  destruct (GetConfig_frees_root_on_failure Fixtures.result_text 4%nat 0 (-7)
              [] [3%nat] H) as (calls & _ & Hfail & Herr & _).
  assert (Hget : -7 <> 0) by discriminate.
  destruct (Hfail eq_refl Hget) as [Hres Hcalls].
  split; [reflexivity|].
  subst calls. assert (Hsome : (Config.GetConfig Fixtures.result_text 4%nat 0 (-7) []).1.2 <> None)
    by discriminate.
  destruct (Herr Hsome) as [_ Hlive]. exact Hlive.
Defined.

(** * Reading a whole file *)

Section ReadLoopProofs.

Import Reader ReadLoop.

(** One [Read] on an open reader, for any buffer. *)
Lemma Read_step cfr p :
  reader_inv cfr -> closed cfr = false -> len p <= max_int ->
  exists k err,
    Read cfr p =
      Some (set_offset cfr (offset cfr + k),
            take (Z.to_nat k) (drop (Z.to_nat (offset cfr)) (cBuffer cfr))
              ++ drop (Z.to_nat k) p,
            (k, err)) /\
    k = Z.min (len p) (Z.min (fullSize cfr - offset cfr) fileReaderBufferSize) /\
    (p = [] -> err = None) /\
    (p <> [] -> (err = Some EOF <-> offset cfr + k = fullSize cfr)).
Proof.
  intros Hinv Hopen Hp. destruct p as [|b p].
  - exists 0, None. rewrite Read_open_empty by exact Hopen.
    rewrite Z.add_0_r, set_offset_same. cbn [Z.to_nat take app drop].
    destruct Hinv as (? & ? & ?). unfold len, fileReaderBufferSize. cbn [length].
    repeat split; try lia; congruence.
  - assert (0 < len (b :: p) <= max_int) as Hp'.
    { split; [unfold len; cbn [length]; lia | exact Hp]. }
    pose proof (Read_open cfr (b :: p) Hinv Hopen Hp') as HR. cbv zeta in HR.
    eexists _, _. split; [exact HR|]. split; [reflexivity|].
    split; [discriminate|]. intros _.
    destruct (Z.ltb_spec
      (offset cfr + Z.min (len (b :: p))
         (Z.min (fullSize cfr - offset cfr) fileReaderBufferSize))
      (fullSize cfr)) as [Hlt|Hge].
    + split; [discriminate | intros Heq; lia].
    + split; [|reflexivity]. intros _. destruct Hinv as (? & ? & ?).
      unfold fileReaderBufferSize in *. lia.
Qed.

Lemma set_offset_inv cfr k :
  reader_inv cfr -> 0 <= k <= fullSize cfr - offset cfr ->
  reader_inv (set_offset cfr (offset cfr + k)).
Proof.
  intros (Hoff & Hfull & Hbuf) Hk. unfold reader_inv.
  cbn [set_offset offset fullSize cBuffer]. lia.
Qed.

Lemma nonempty_or_all_empty (bufs : list (list byte)) :
  Exists (fun p => p <> []) bufs \/ Forall (fun p => p = []) bufs.
Proof.
  induction bufs as [|p rest [IH|IH]].
  - right. constructor.
  - left. right. exact IH.
  - destruct p as [|b p].
    + right. constructor; [reflexivity | exact IH].
    + left. left. discriminate.
Qed.

(** Calls with empty buffers leave an open reader where it is. *)
Lemma reads_empty bufs : forall cfr,
  closed cfr = false -> Forall (fun p => p = []) bufs ->
  reads cfr bufs = Some (cfr, map (fun _ => ([], (0, None))) bufs).
Proof.
  induction bufs as [|p rest IH]; intros cfr Hopen Hall; [reflexivity|].
  inversion Hall as [|? ? Hp Hrest]; subst. cbn [reads].
  rewrite Read_open_empty by exact Hopen. cbn [mbind option_bind fst snd].
  rewrite IH by assumption. reflexivity.
Qed.

Lemma stream_empty (bufs : list (list byte)) :
  stream (map (fun _ => ([], (0, None))) bufs) = [].
Proof. induction bufs as [|p rest IH]; [reflexivity|]. exact IH. Qed.

(** A sequence of reads on an open reader: it does not panic, keeps the
    reader open and inside the invariant, and delivers the bytes of the
    native buffer between the offsets before and after. *)
Lemma reads_spec bufs : forall cfr,
  reader_inv cfr -> closed cfr = false ->
  Forall (fun p => len p <= max_int) bufs ->
  exists cfr' rs,
    reads cfr bufs = Some (cfr', rs) /\
    reader_inv cfr' /\ closed cfr' = false /\
    cBuffer cfr' = cBuffer cfr /\ fullSize cfr' = fullSize cfr /\
    offset cfr <= offset cfr' /\
    length rs = length bufs /\
    stream rs = take (Z.to_nat (offset cfr' - offset cfr))
                     (drop (Z.to_nat (offset cfr)) (cBuffer cfr)) /\
    (Exists (fun r => r.2.2 = Some EOF) rs <->
     offset cfr' = fullSize cfr /\ Exists (fun p => p <> []) bufs).
Proof.
  induction bufs as [|p rest IH]; intros cfr Hinv Hopen Hall.
  - exists cfr, []. cbn [reads]. rewrite Z.sub_diag.
    split; [reflexivity|]. split; [exact Hinv|]. split; [exact Hopen|].
    split; [reflexivity|]. split; [reflexivity|]. split; [lia|].
    split; [reflexivity|]. split; [reflexivity|]. split.
    + intros H. inversion H.
    + intros [_ H]. inversion H.
  - inversion Hall as [|? ? Hp Hrest]; subst.
    destruct (Read_step cfr p Hinv Hopen Hp) as (k & err & HR & Hk & Hnil & Heof).
    pose proof Hinv as (Hoff & Hfull & Hbuf).
    assert (Hkr : 0 <= k <= fullSize cfr - offset cfr /\ k <= len p).
    { unfold len, fileReaderBufferSize in *. lia. }
    destruct Hkr as [Hk0 Hkp].
    pose proof (set_offset_inv cfr k Hinv Hk0) as Hinv1.
    destruct (IH (set_offset cfr (offset cfr + k)) Hinv1 Hopen Hrest)
      as (cfr' & rs & Hreads & Hinv' & Hopen' & Hbuf' & Hfull' & Hmono
          & Hlen & Hstream & Hex).
    cbn [set_offset offset fullSize cBuffer] in Hbuf', Hfull', Hmono, Hstream, Hex.
    exists cfr'. eexists. cbn [reads]. rewrite HR.
    cbn [mbind option_bind fst snd]. rewrite Hreads.
    cbn [mbind option_bind fst snd]. split; [reflexivity|].
    split; [exact Hinv'|]. split; [exact Hopen'|]. split; [exact Hbuf'|].
    split; [exact Hfull'|]. split; [lia|].
    split; [cbn [length]; rewrite Hlen; reflexivity|].
    assert (Hdel : delivered
                     (take (Z.to_nat k)
                        (drop (Z.to_nat (offset cfr)) (cBuffer cfr))
                        ++ drop (Z.to_nat k) p, (k, err))
                   = take (Z.to_nat k)
                       (drop (Z.to_nat (offset cfr)) (cBuffer cfr))).
    { unfold delivered. cbn [fst snd].
      rewrite take_app_le.
      - rewrite take_take, Nat.min_id. reflexivity.
      - rewrite length_take, length_drop. unfold len in *. lia. }
    split.
    + unfold stream. cbn [map concat]. rewrite Hdel.
      fold (stream rs). rewrite Hstream.
      replace (Z.to_nat (offset cfr + k))
        with (Z.to_nat (offset cfr) + Z.to_nat k)%nat by lia.
      rewrite <- drop_drop, take_take_drop. f_equal. lia.
    + rewrite Exists_cons, Exists_cons. cbn [fst snd]. rewrite Hex.
      destruct Hinv' as (Hoff' & _ & _). rewrite Hfull' in Hoff'.
      split.
      * intros [He | [Ho Hne]].
        -- assert (p <> []) as Hpne by (intros ->; specialize (Hnil eq_refl); congruence).
           destruct (Heof Hpne) as [H1 _]. specialize (H1 He).
           split; [lia | left; exact Hpne].
        -- split; [exact Ho | right; exact Hne].
      * intros [Ho [Hpne | Hne]].
        -- destruct (nonempty_or_all_empty rest) as [Hne|Hall1].
           ++ right. split; [exact Ho | exact Hne].
           ++ left. destruct (Heof Hpne) as [_ H2]. apply H2.
              rewrite (reads_empty rest (set_offset cfr (offset cfr + k)) Hopen Hall1)
                in Hreads.
              injection Hreads as <- _. cbn [set_offset offset] in Ho. exact Ho.
        -- right. split; [exact Ho | exact Hne].
Qed.

(** Reads with buffers of one length [B]: the offset they reach. *)
Lemma reads_fixed B bufs : forall cfr,
  reader_inv cfr -> closed cfr = false -> 0 < B <= max_int ->
  Forall (fun p => len p = B) bufs ->
  exists cfr' rs,
    reads cfr bufs = Some (cfr', rs) /\
    offset cfr' =
      Z.min (fullSize cfr)
            (offset cfr + len bufs * Z.min B fileReaderBufferSize).
Proof.
  induction bufs as [|p rest IH]; intros cfr Hinv Hopen HB Hall.
  - exists cfr, []. split; [reflexivity|].
    destruct Hinv as (? & ? & ?). unfold len. cbn [length]. lia.
  - inversion Hall as [|? ? Hp Hrest]; subst.
    assert (len p <= max_int) as Hp by lia.
    destruct (Read_step cfr p Hinv Hopen Hp) as (k & err & HR & Hk & _ & _).
    pose proof Hinv as (Hoff & Hfull & Hbuf).
    assert (Hk0 : 0 <= k <= fullSize cfr - offset cfr).
    { unfold fileReaderBufferSize in *. lia. }
    pose proof (set_offset_inv cfr k Hinv Hk0) as Hinv1.
    destruct (IH (set_offset cfr (offset cfr + k)) Hinv1 Hopen HB Hrest)
      as (cfr' & rs & Hreads & Hoff').
    cbn [set_offset offset fullSize] in Hoff'.
    exists cfr'. eexists. cbn [reads]. rewrite HR.
    cbn [mbind option_bind fst snd]. rewrite Hreads.
    cbn [mbind option_bind fst snd]. split; [reflexivity|].
    rewrite Hoff'. unfold len in *. cbn [length]. rewrite Nat2Z.inj_succ.
    unfold fileReaderBufferSize in *.
    set (c := Z.min (Z.of_nat (length p)) (1 * 1024 * 1024)) in *.
    assert (0 <= c) by (subst c; lia).
    assert (0 <= Z.of_nat (length rest) * c) by (apply Z.mul_nonneg_nonneg; lia).
    rewrite Z.mul_succ_l. lia.
Qed.

(** X1: whatever buffers a caller reads a file with, the calls do not
    panic, the bytes they deliver, put end to end, are the first [offset]
    bytes of the file, and [offset] never passes the size of the file. *)
Theorem reads_deliver_prefix folder fileName h data bufs :
  len data < 2 ^ 64 -> Forall (fun p => len p <= max_int) bufs ->
  exists cfr' rs,
    reads (FileReader folder fileName h data) bufs = Some (cfr', rs) /\
    length rs = length bufs /\
    stream rs = take (Z.to_nat (offset cfr')) data /\
    len (stream rs) = offset cfr' /\
    offset cfr' <= len data.
Proof.
  intros Hlen Hall.
  pose proof (FileReader_inv folder fileName h data Hlen) as Hinv.
  destruct (reads_spec bufs _ Hinv eq_refl Hall)
    as (cfr' & rs & Hreads & Hinv' & _ & _ & Hfull & Hmono & Hn & Hstream & _).
  cbn [FileReader offset fullSize cBuffer] in Hfull, Hmono, Hstream.
  rewrite Z.sub_0_r in Hstream. change (Z.to_nat 0) with 0%nat in Hstream.
  rewrite drop_0 in Hstream.
  pose proof (len_nonneg data). rewrite uint64_small in Hfull by lia.
  destruct Hinv' as (Hoff' & _ & _). rewrite Hfull in Hoff'.
  exists cfr', rs. split; [exact Hreads|]. split; [exact Hn|].
  split; [exact Hstream|]. split; [|lia].
  rewrite Hstream. unfold len in *. rewrite length_take. lia.
Qed.

Lemma reads_deliver_prefix_witness :
  exists cfr' rs,
    reads Fixtures.sample_reader Samples.three_buffers = Some (cfr', rs) /\
    length rs = 3%nat /\
    stream rs = take (Z.to_nat (offset cfr')) Fixtures.sample_data /\
    len (stream rs) = offset cfr' /\
    offset cfr' <= 5.
Proof.
  apply (reads_deliver_prefix "/store_00010001/DCIM" "IMG_0001.JPG" 7%nat
           Fixtures.sample_data Samples.three_buffers).
  - cbv. reflexivity.
  - repeat constructor; cbv; discriminate.
Defined.

(** X2: in a sequence of reads of a file, some call reports end-of-stream
    exactly when the sequence has brought [offset] to the size of the file
    and held a buffer that is not empty; the bytes delivered are then the
    whole file. *)
Theorem reads_eof_whole_file folder fileName h data bufs :
  len data < 2 ^ 64 -> Forall (fun p => len p <= max_int) bufs ->
  exists cfr' rs,
    reads (FileReader folder fileName h data) bufs = Some (cfr', rs) /\
    (Exists (fun r => r.2.2 = Some EOF) rs <->
     offset cfr' = len data /\ Exists (fun p => p <> []) bufs) /\
    (Exists (fun r => r.2.2 = Some EOF) rs -> stream rs = data).
Proof.
  intros Hlen Hall.
  pose proof (FileReader_inv folder fileName h data Hlen) as Hinv.
  destruct (reads_spec bufs _ Hinv eq_refl Hall)
    as (cfr' & rs & Hreads & _ & _ & _ & _ & _ & _ & Hstream & Hex).
  cbn [FileReader offset fullSize cBuffer] in Hstream, Hex.
  rewrite Z.sub_0_r in Hstream. change (Z.to_nat 0) with 0%nat in Hstream.
  rewrite drop_0 in Hstream.
  pose proof (len_nonneg data). rewrite uint64_small in Hex by lia.
  exists cfr', rs. split; [exact Hreads|]. split; [exact Hex|].
  intros He. apply Hex in He as [Ho _]. rewrite Hstream, Ho.
  apply take_ge. unfold len. lia.
Qed.

Lemma reads_eof_whole_file_witness :
  exists cfr' rs,
    reads Fixtures.sample_reader Samples.three_buffers = Some (cfr', rs) /\
    (Exists (fun r => r.2.2 = Some EOF) rs <->
     offset cfr' = 5 /\ Exists (fun p => p <> []) Samples.three_buffers) /\
    (Exists (fun r => r.2.2 = Some EOF) rs -> stream rs = Fixtures.sample_data).
Proof.
  apply (reads_eof_whole_file "/store_00010001/DCIM" "IMG_0001.JPG" 7%nat
           Fixtures.sample_data Samples.three_buffers).
  - cbv. reflexivity.
  - repeat constructor; cbv; discriminate.
Defined.

(** X3: reading a file with buffers of one length [B > 0] brings [offset],
    after [n] calls, to [min(size, n * min(B, 1 MiB))]; a call among them
    reports end-of-stream exactly when [n * min(B, 1 MiB)] reaches the size
    of the file. *)
Theorem reads_fixed_size folder fileName h data B bufs :
  len data < 2 ^ 64 -> 0 < B <= max_int ->
  Forall (fun p => len p = B) bufs -> bufs <> [] ->
  exists cfr' rs,
    reads (FileReader folder fileName h data) bufs = Some (cfr', rs) /\
    offset cfr' = Z.min (len data) (len bufs * Z.min B (1 * 1024 * 1024)) /\
    (Exists (fun r => r.2.2 = Some EOF) rs <->
     len data <= len bufs * Z.min B (1 * 1024 * 1024)).
Proof.
  intros Hlen HB Hall Hne.
  pose proof (FileReader_inv folder fileName h data Hlen) as Hinv.
  destruct (reads_fixed B bufs _ Hinv eq_refl HB Hall)
    as (cfr' & rs & Hreads & Hoff).
  assert (Forall (fun p : list byte => len p <= max_int) bufs) as Hall'.
  { eapply Forall_impl; [exact Hall|]. cbv beta. intros p Hp. lia. }
  destruct (reads_spec bufs _ Hinv eq_refl Hall')
    as (cfr2 & rs2 & Hreads2 & _ & _ & _ & _ & _ & _ & _ & Hex).
  rewrite Hreads in Hreads2. injection Hreads2 as <- <-.
  cbn [FileReader offset fullSize] in Hoff, Hex.
  pose proof (len_nonneg data). rewrite uint64_small in Hoff, Hex by lia.
  rewrite Z.add_0_l in Hoff. fold fileReaderBufferSize.
  exists cfr', rs. split; [exact Hreads|]. split; [exact Hoff|].
  rewrite Hex, Hoff.
  assert (Exists (fun p : list byte => p <> []) bufs) as Hsome.
  { destruct bufs as [|p rest]; [congruence|]. left.
    inversion Hall as [|? ? Hp _]; subst. intros ->. unfold len in HB.
    cbn [length] in HB. lia. }
  split; [intros [Hmin _]; lia | intros Hle; split; [lia | exact Hsome]].
Qed.

Lemma reads_fixed_size_witness :
  exists cfr' rs,
    reads Fixtures.sample_reader Samples.three_buffers = Some (cfr', rs) /\
    offset cfr' = Z.min 5 (3 * Z.min 2 (1 * 1024 * 1024)) /\
    (Exists (fun r => r.2.2 = Some EOF) rs <->
     5 <= 3 * Z.min 2 (1 * 1024 * 1024)).
Proof.
  apply (reads_fixed_size "/store_00010001/DCIM" "IMG_0001.JPG" 7%nat
           Fixtures.sample_data 2 Samples.three_buffers).
  - cbv. reflexivity.
  - cbv. split; [reflexivity | discriminate].
  - repeat constructor.
  - discriminate.
Defined.

(** The log of a sequence of operations: one release is added when the
    reader was open and a [Close] is among the operations, none
    otherwise. *)
Lemma run_log ops : forall cfr log,
  reader_inv cfr -> Forall op_ok ops ->
  exists cfr' log',
    run ops (cfr, log) = Some (cfr', log') /\
    closed cfr' = closed cfr || existsb is_close ops /\
    cCameraFile cfr' = cCameraFile cfr /\
    log' = log ++ (if negb (closed cfr) && existsb is_close ops
                   then [gp_file_free (cCameraFile cfr)] else []).
Proof.
  induction ops as [|o ops IH]; intros cfr log Hinv Hall.
  - exists cfr, log. cbn [run existsb]. rewrite orb_false_r, andb_false_r, app_nil_r.
    repeat split.
  - inversion Hall as [|? ? Ho Hops]; subst.
    destruct (closed cfr) eqn:Hc.
    + exists cfr, log. rewrite run_closed by exact Hc.
      cbn [negb andb orb]. rewrite app_nil_r. repeat split. exact Hc.
    + destruct o as [p|]; cbn [run step fst snd existsb is_close].
      * destruct (Read_step cfr p Hinv Hc Ho) as (k & err & HR & Hk & _ & _).
        rewrite HR. cbn [mbind option_bind fst snd].
        assert (Hk0 : 0 <= k <= fullSize cfr - offset cfr).
        { destruct Hinv as (? & ? & ?). unfold len, fileReaderBufferSize in *. lia. }
        destruct (IH (set_offset cfr (offset cfr + k)) log
                    (set_offset_inv cfr k Hinv Hk0) Hops)
          as (cfr' & log' & Hrun & Hcl & Hfile & Hlog).
        cbn [set_offset closed cCameraFile] in Hcl, Hfile, Hlog.
        rewrite Hc in Hcl, Hlog.
        exists cfr', log'. cbn [orb negb andb] in *.
        split; [exact Hrun|]. split; [exact Hcl|]. split; [exact Hfile|exact Hlog].
      * unfold Close. rewrite Hc. cbn [negb fst mbind option_bind].
        rewrite run_closed by reflexivity.
        eexists _, _. split; [reflexivity|]. cbn [orb andb negb set_closed closed cCameraFile].
        repeat split.
Qed.

(** X4: over any sequence of [Read] and [Close] calls on a reader, the
    native file object is released once when a [Close] is among the calls
    and not at all otherwise; the reader ends closed exactly in the first
    case. *)
Theorem release_at_most_once folder fileName h data ops :
  len data < 2 ^ 64 -> Forall op_ok ops ->
  exists cfr' log,
    run ops (FileReader folder fileName h data, []) = Some (cfr', log) /\
    closed cfr' = existsb is_close ops /\
    log = (if existsb is_close ops then [gp_file_free h] else []) /\
    releases h log = (if existsb is_close ops then 1 else 0)%nat.
Proof.
  intros Hlen Hall.
  pose proof (FileReader_inv folder fileName h data Hlen) as Hinv.
  destruct (run_log ops _ [] Hinv Hall) as (cfr' & log & Hrun & Hcl & _ & Hlog).
  cbn [FileReader closed cCameraFile orb negb andb app] in Hcl, Hlog.
  exists cfr', log. split; [exact Hrun|]. split; [exact Hcl|].
  split; [exact Hlog|]. rewrite Hlog.
  destruct (existsb is_close ops); [|reflexivity].
  unfold releases. cbn [List.filter is_file_free]. rewrite Nat.eqb_refl. reflexivity.
Qed.

Lemma release_at_most_once_witness :
  exists cfr' log,
    run [OpRead [x00; x00]; OpClose; OpRead Fixtures.buf8; OpClose; OpClose]
        (Fixtures.sample_reader, []) = Some (cfr', log) /\
    closed cfr' = true /\
    log = [gp_file_free 7%nat] /\
    releases 7%nat log = 1%nat.
Proof.
  apply (release_at_most_once "/store_00010001/DCIM" "IMG_0001.JPG" 7%nat
           Fixtures.sample_data
           [OpRead [x00; x00]; OpClose; OpRead Fixtures.buf8; OpClose; OpClose]).
  - cbv. reflexivity.
  - repeat constructor; cbv; discriminate.
Defined.

End ReadLoopProofs.

(** * Decoding a native list *)

Section MapProofs.

Import Listing.

(** [vals[key] = val] for one entry. *)
Local Abbreviation put :=
  (fun (m : gmap string string) (kv : string * string) => <[kv.1 := kv.2]> m).

Lemma map_loop_foldl (l : list (string * string)) steps : forall (i : nat) vals,
  (i + steps = length l)%nat ->
  map_loop l steps (Z.of_nat i) vals = foldl put vals (drop i l).
Proof.
  induction steps as [|k IH]; intros i vals Hlen.
  - rewrite drop_ge by lia. reflexivity.
  - cbn [map_loop]. unfold gp_list_get_name, gp_list_get_value, CameraList.
    rewrite Nat2Z.id.
    destruct (lookup_lt_is_Some_2 l i) as [kv Hkv]; [lia|].
    rewrite Hkv. cbn [fmap option_fmap option_map default].
    rewrite (drop_S l kv i Hkv). cbn [foldl].
    replace (Z.of_nat i + 1) with (Z.of_nat (S i)) by lia.
    apply IH. lia.
Qed.

Lemma cameraListToMap_foldl (l : list (string * string)) :
  len l <= max_int -> cameraListToMap l = (foldl put ∅ l, 0).
Proof.
  intros Hl. unfold cameraListToMap, gp_list_count.
  pose proof (len_nonneg l). unfold max_int in Hl.
  rewrite int_small by lia.
  destruct (Z.ltb_spec (len l) 0) as [Hneg|_]; [lia|].
  unfold len. rewrite Nat2Z.id.
  rewrite (map_loop_foldl l (length l) 0 ∅ eq_refl). reflexivity.
Qed.

Lemma foldl_put_other (l : list (string * string)) : forall m k,
  k ∉ l.*1 -> foldl put m l !! k = m !! k.
Proof.
  induction l as [|[k' v'] l IH]; intros m k Hk; [reflexivity|].
  cbn [fmap list_fmap fst] in Hk. apply not_elem_of_cons in Hk as [Hne Hk].
  cbn [foldl fst snd]. rewrite IH by exact Hk.
  apply lookup_insert_ne. congruence.
Qed.

Lemma foldl_put_dom (l : list (string * string)) : forall m k,
  is_Some (foldl put m l !! k) <-> is_Some (m !! k) \/ k ∈ l.*1.
Proof.
  induction l as [|[k' v'] l IH]; intros m k.
  - cbn [foldl fmap list_fmap]. split; [intros H; left; exact H|].
    intros [H|H]; [exact H | inversion H].
  - cbn [foldl fst snd fmap list_fmap]. rewrite IH, elem_of_cons.
    destruct (decide (k' = k)) as [->|Hne].
    + rewrite lookup_insert_eq. split.
      * intros _. right. left. reflexivity.
      * intros _. left. eexists. reflexivity.
    + rewrite lookup_insert_ne by exact Hne. split.
      * intros [H|H]; [left; exact H | right; right; exact H].
      * intros [H|[H|H]]; [left; exact H | congruence | right; exact H].
Qed.



End MapProofs.

(** * More on the folder listing *)

Section ListingMore.

Import Listing.

Variable gp_result_as_string : Z -> string.
Variable gp_camera_folder_list_folders : string -> Z * CameraList.
Variable range_keys : gmap string string -> list string.

Local Abbreviation ListFolders :=
  (Listing.ListFolders gp_result_as_string gp_camera_folder_list_folders
     range_keys).
Local Abbreviation RListFolders :=
  (Listing.RListFolders gp_result_as_string gp_camera_folder_list_folders
     range_keys).

Lemma elem_of_keys (m : gmap string string) n :
  n ∈ (map_to_list m).*1 <-> is_Some (m !! n).
Proof.
  rewrite list_elem_of_fmap. split.
  - intros ([k v] & -> & H). apply elem_of_map_to_list in H. eexists. exact H.
  - intros [v Hv]. exists (n, v). split; [reflexivity|].
    apply elem_of_map_to_list. exact Hv.
Qed.

(** X6: when [range] visits each key of a map once, a successful
    [ListFolders] returns every name of the native list exactly once,
    whatever the number of entries with that name, and no other name; a
    failing one returns no name and the text of the result code as error. *)
Theorem ListFolders_names folder rc (l : list (string * string)) :
  (forall m, range_keys m ≡ₚ (map_to_list m).*1) ->
  gp_camera_folder_list_folders
    (if String.eqb folder "" then "/"%string else folder) = (rc, l) ->
  len l <= max_int ->
  (rc <> 0 ->
   ListFolders folder = ([], Some (Errorf (gp_result_as_string rc)))) /\
  (rc = 0 ->
   (ListFolders folder).2 = None /\
   NoDup (ListFolders folder).1 /\
   (forall n, n ∈ (ListFolders folder).1 <-> n ∈ l.*1) /\
   (length (ListFolders folder).1 <= length l)%nat).
Proof.
  intros Hrange Hnative Hl. unfold Listing.ListFolders. rewrite Hnative.
  unfold cameraResultToError. rewrite (cameraListToMap_foldl l Hl).
  destruct (Z.eqb_spec rc 0) as [->|Hne]; cbn [negb fst snd].
  - split; [congruence|]. intros _. split; [reflexivity|].
    assert (Hnd : NoDup (range_keys
              (foldl (fun m kv => <[kv.1 := kv.2]> m) ∅ l))).
    { rewrite Hrange. apply NoDup_fst_map_to_list. }
    assert (Hin : forall n,
              n ∈ range_keys (foldl (fun m kv => <[kv.1 := kv.2]> m) ∅ l)
              <-> n ∈ l.*1).
    { intros n. rewrite Hrange, elem_of_keys, foldl_put_dom, lookup_empty.
      split; [intros [[x Hx]|H]; [discriminate | exact H] | intros H; right; exact H]. }
    split; [exact Hnd|]. split; [exact Hin|].
    rewrite <- (length_fmap fst l). apply submseteq_length.
    apply NoDup_submseteq; [exact Hnd|]. intros n Hn. apply Hin, Hn.
  - split; [intros _; reflexivity | congruence].
Qed.

Lemma list_path_idem folder : list_path (list_path folder) = list_path folder.
Proof.
  destruct (list_path_cases (list_path folder)) as [[_ H]|[H _]]; [exact H|].
  rewrite list_path_ends in H. discriminate.
Qed.


Lemma append_assoc (a b c : string) :
  ((a +:+ b) +:+ c = a +:+ (b +:+ c))%string.
Proof.
  induction a as [|x a IH]; [reflexivity|].
  change (String x ((a +:+ b) +:+ c) = String x (a +:+ (b +:+ c)))%string.
  f_equal. exact IH.
Qed.

(** The paths of a result start with the listed path. *)
Lemma RListFolders_prefix fuel : forall folder out,
  RListFolders fuel folder = Some out ->
  Forall (fun p => exists rest, p = (list_path folder +:+ rest)%string) out.
Proof.
  induction fuel as [|fuel IH]; intros folder out H; [discriminate|].
  rewrite RListFolders_S in H. apply sub_loop_spec in H as (outs & HF & ->).
  cbn [app]. unfold appended.
  induction HF as [|sub r subs outs Hr HF IHF]; [constructor|].
  cbn [zip_with concat]. constructor; [exists sub; reflexivity|].
  apply Forall_app. split; [|exact IHF].
  eapply Forall_impl; [exact (IH _ _ Hr)|]. cbv beta.
  intros p [rest ->].
  destruct (list_path_cases (list_path folder +:+ sub)) as [[_ ->]|[_ ->]].
  - exists (sub +:+ rest)%string. apply append_assoc.
  - exists (sub +:+ ("/" +:+ rest))%string. rewrite !append_assoc. reflexivity.
Qed.

(** X9: every path [RListFolders] returns starts with the path it lists,
    the folder with its trailing separator. *)
Theorem RListFolders_under_folder fuel folder out :
  RListFolders fuel folder = Some out ->
  Forall (fun p => exists rest, p = (list_path folder +:+ rest)%string) out.
Proof. apply RListFolders_prefix. Qed.

End ListingMore.

Lemma ListFolders_names_witness :
  (Listing.ListFolders Fixtures.result_text Samples.repeating_storage
     Fixtures.range_order "").2 = None /\
  NoDup (Listing.ListFolders Fixtures.result_text Samples.repeating_storage
           Fixtures.range_order "").1 /\
  (forall n,
     n ∈ (Listing.ListFolders Fixtures.result_text Samples.repeating_storage
            Fixtures.range_order "").1 <-> n ∈ Samples.repeated_names.*1) /\
  (length (Listing.ListFolders Fixtures.result_text Samples.repeating_storage
             Fixtures.range_order "").1 <= 3)%nat.
Proof.
  apply (ListFolders_names Fixtures.result_text Samples.repeating_storage
           Fixtures.range_order "" 0 Samples.repeated_names).
  - intros m. reflexivity.
  - reflexivity.
  - cbv. discriminate.
  - reflexivity.
Defined.

Lemma RListFolders_under_folder_witness :
  Forall (fun p => exists rest, p = (Listing.list_path "" +:+ rest)%string)
         ["/c"; "/c/d"; "/a"; "/a/b"]%string.
Proof.
  apply (RListFolders_under_folder Fixtures.result_text Fixtures.storage
           Fixtures.range_order 3 "").
  reflexivity.
Defined.

(** * Listing and deleting files *)

Section FilesProofs.

Import Listing Files.

Variable gp_result_as_string : Z -> string.
Variable gp_camera_folder_list_files : string -> Z * CameraList.
Variable range_keys : gmap string string -> list string.

Local Abbreviation ListFiles :=
  (Files.ListFiles gp_result_as_string gp_camera_folder_list_files range_keys).

Lemma ends_with_sep_nonempty s : ends_with_sep s = true -> s <> ""%string.
Proof. intros H ->. discriminate. Qed.

(** [ListFiles] in terms of the path it asks the device for. *)
Lemma ListFiles_asks folder :
  ListFiles folder =
    (let '(rc, l) := gp_camera_folder_list_files (list_path folder) in
     match cameraResultToError gp_result_as_string rc with
     | Some err => ([], Some err)
     | None => (range_keys (cameraListToMap l).1, None)
     end).
Proof.
  unfold Files.ListFiles. destruct (String.eqb_spec folder "") as [->|Hne].
  - change (if negb (HasSuffix "/" "/") then ("/" +:+ "/")%string else "/"%string)
      with "/"%string.
    change (list_path "") with "/"%string.
    destruct (gp_camera_folder_list_files "/") as [rc l].
    destruct (cameraResultToError gp_result_as_string rc); [reflexivity|].
    destruct (cameraListToMap l). reflexivity.
  - fold (list_path folder).
    destruct (gp_camera_folder_list_files (list_path folder)) as [rc l].
    destruct (cameraResultToError gp_result_as_string rc); [reflexivity|].
    destruct (cameraListToMap l). reflexivity.
Qed.


Lemma first_byte_pointer_string s :
  first_byte_pointer (list_byte_of_string s) = None <-> s = ""%string.
Proof.
  destruct s as [|c s]; cbn; [split; reflexivity|].
  unfold first_byte_pointer, len. cbn [length].
  destruct (Z.ltb_spec 0 (Z.of_nat (S (length (list_byte_of_string s)))));
    [split; discriminate | lia].
Qed.

(** X10: [DeleteFile] panics, before it calls the device, exactly when the
    folder or the file name is empty; otherwise it returns the error of the
    native result code, none for code 0. *)
Theorem DeleteFile_empty_name folder file rc :
  (Files.DeleteFile gp_result_as_string folder file rc = None <->
   folder = ""%string \/ file = ""%string) /\
  (folder <> ""%string -> file <> ""%string ->
   Files.DeleteFile gp_result_as_string folder file rc =
     Some (cameraResultToError gp_result_as_string rc)).
Proof.
  unfold Files.DeleteFile.
  pose proof (first_byte_pointer_string folder) as Hf.
  pose proof (first_byte_pointer_string file) as Hn.
  destruct (first_byte_pointer (list_byte_of_string folder)) as [pf|];
    destruct (first_byte_pointer (list_byte_of_string file)) as [pn|];
    cbn [mbind option_bind]; split.
  - split; [discriminate|]. intros [H|H]; [apply Hf in H | apply Hn in H]; discriminate.
  - reflexivity.
  - split; [intros _; right; apply Hn; reflexivity | reflexivity].
  - intros _ H. exfalso. apply H, Hn. reflexivity.
  - split; [intros _; left; apply Hf; reflexivity | reflexivity].
  - intros H. exfalso. apply H, Hf. reflexivity.
  - split; [intros _; left; apply Hf; reflexivity | reflexivity].
  - intros H. exfalso. apply H, Hf. reflexivity.
Qed.

End FilesProofs.

(** * No folder is listed twice *)

Section ListingDistinct.

Import Listing Paths.

Variable gp_result_as_string : Z -> string.
Variable gp_camera_folder_list_folders : string -> Z * CameraList.
Variable range_keys : gmap string string -> list string.

Local Abbreviation ListFolders :=
  (Listing.ListFolders gp_result_as_string gp_camera_folder_list_folders
     range_keys).
Local Abbreviation RListFolders :=
  (Listing.RListFolders gp_result_as_string gp_camera_folder_list_folders
     range_keys).

Lemma append_nil_r (a : string) : (a +:+ "")%string = a.
Proof.
  induction a as [|x a IH]; [reflexivity|].
  change (String x (a +:+ "") = String x a)%string. f_equal. exact IH.
Qed.

(** Two names without separator, each followed by nothing or by a
    separator: equal wholes have equal names. *)
Lemma name_split a : forall b ta tb,
  has_sep a = false -> has_sep b = false ->
  (ta = ""%string \/ starts_with_sep ta = true) ->
  (tb = ""%string \/ starts_with_sep tb = true) ->
  (a +:+ ta)%string = (b +:+ tb)%string -> a = b /\ ta = tb.
Proof.
  induction a as [|x a IH]; intros b ta tb Ha Hb Hta Htb Heq.
  - destruct b as [|y b]; [split; [reflexivity | exact Heq]|].
    exfalso. cbn [has_sep] in Hb. apply orb_false_iff in Hb as [Hy _].
    change ("" +:+ ta)%string with ta in Heq. subst ta.
    destruct Hta as [Hta|Hta]; [discriminate|].
    change (is_sep y = true) in Hta. congruence.
  - destruct b as [|y b].
    + exfalso. cbn [has_sep] in Ha. apply orb_false_iff in Ha as [Hx _].
      change ("" +:+ tb)%string with tb in Heq. subst tb.
      destruct Htb as [Htb|Htb]; [discriminate|].
      change (is_sep x = true) in Htb. congruence.
    + cbn [has_sep] in Ha, Hb.
      apply orb_false_iff in Ha as [_ Ha]. apply orb_false_iff in Hb as [_ Hb].
      change (String x (a +:+ ta) = String y (b +:+ tb))%string in Heq.
      injection Heq as -> Heq.
      destruct (IH b ta tb Ha Hb Hta Htb Heq) as [-> ->]. split; reflexivity.
Qed.

Lemma name_ok_no_sep sub : name_ok sub = true -> has_sep sub = false.
Proof.
  unfold name_ok. intros H. apply andb_true_iff in H as [_ H].
  apply negb_true_iff in H. exact H.
Qed.

(** A path at or below one name is not at or below another. *)
Lemma at_or_below_name path sub1 sub2 e :
  name_ok sub1 = true -> name_ok sub2 = true ->
  at_or_below path sub1 e -> at_or_below path sub2 e -> sub1 = sub2.
Proof.
  intros H1 H2 (t1 & -> & Ht1) (t2 & Heq & Ht2).
  apply (inj (String.app path)) in Heq.
  apply (name_split sub1 sub2 t1 t2); auto using name_ok_no_sep.
Qed.

(** The paths a recursive call returns for a well-formed name lie below
    that name. *)
Lemma results_below fuel path sub r :
  name_ok sub = true ->
  RListFolders fuel (path +:+ sub)%string = Some r ->
  Forall (below path sub) r.
Proof.
  intros Hok Hr.
  pose proof (RListFolders_prefix gp_result_as_string
                gp_camera_folder_list_folders range_keys fuel _ _ Hr) as Hpre.
  eapply Forall_impl; [exact Hpre|]. cbv beta. intros e [rest ->].
  destruct (name_ok_spec sub Hok) as (Hne & _ & _ & Hes).
  assert (ends_with_sep (path +:+ sub) = false) as Hend.
  { destruct sub as [|c s]; [congruence|]. rewrite ends_with_sep_app. exact Hes. }
  destruct (list_path_cases (path +:+ sub)) as [[He _]|[_ ->]]; [congruence|].
  exists ("/" +:+ rest)%string. split; [|reflexivity].
  rewrite !append_assoc. reflexivity.
Qed.

Lemma below_at_or_below path sub e : below path sub e -> at_or_below path sub e.
Proof. intros (t & He & Ht). exists t. split; [exact He | right; exact Ht]. Qed.

(** Every path the loop appends lies at or below one of the names. *)
Lemma appended_below path subs outs :
  Forall2 (fun sub r => Forall (below path sub) r) subs outs ->
  Forall (fun e => exists sub, sub ∈ subs /\ at_or_below path sub e)
         (appended path subs outs).
Proof.
  unfold appended. induction 1 as [|sub r subs outs Hr HF IH]; [constructor|].
  cbn [zip_with concat]. constructor.
  - exists sub. split; [left|]. exists ""%string.
    split; [rewrite append_nil_r; reflexivity | left; reflexivity].
  - apply Forall_app. split.
    + eapply Forall_impl; [exact Hr|]. cbv beta. intros e He.
      exists sub. split; [left | apply below_at_or_below, He].
    + eapply Forall_impl; [exact IH|]. cbv beta. intros e (s & Hs & He).
      exists s. split; [right; exact Hs | exact He].
Qed.

Lemma appended_NoDup path subs outs :
  NoDup subs -> Forall (fun sub => name_ok sub = true) subs ->
  Forall2 (fun sub r => NoDup r /\ Forall (below path sub) r) subs outs ->
  NoDup (appended path subs outs).
Proof.
  intros Hnd Hok HF. revert Hnd Hok.
  induction HF as [|sub r subs outs [Hr Hbelow] HF IH]; intros Hnd Hok.
  - constructor.
  - apply NoDup_cons in Hnd as [Hsub Hnd].
    apply Forall_cons in Hok as [Hsubok Hok].
    change (appended path (sub :: subs) (r :: outs))
      with (((path +:+ sub)%string :: r) ++ appended path subs outs).
    assert (Hrest : Forall (fun e => exists s, s ∈ subs /\ at_or_below path s e)
                           (appended path subs outs)).
    { apply appended_below. eapply Forall2_impl; [exact HF|].
      cbv beta. intros s r' [_ H]. exact H. }
    assert (Hblock : Forall (at_or_below path sub) ((path +:+ sub)%string :: r)).
    { constructor.
      - exists ""%string.
        split; [rewrite append_nil_r; reflexivity | left; reflexivity].
      - eapply Forall_impl; [exact Hbelow|]. cbv beta.
        intros e He. apply below_at_or_below, He. }
    apply NoDup_app. split; [|split].
    + apply NoDup_cons. split; [|exact Hr].
      intros Hin. rewrite Forall_forall in Hbelow.
      destruct (Hbelow _ Hin) as (t & Heq & Ht).
      rewrite <- (append_nil_r sub) in Heq at 1.
      apply (inj (String.app path)) in Heq.
      destruct (name_split sub sub ""%string t) as [_ <-];
        auto using name_ok_no_sep.
      discriminate.
    + intros e He Hin.
      rewrite Forall_forall in Hblock, Hrest.
      destruct (Hrest _ Hin) as (s & Hs & Hes).
      assert (name_ok s = true) as Hsok.
      { rewrite Forall_forall in Hok. apply Hok, Hs. }
      pose proof (at_or_below_name path sub s e Hsubok Hsok (Hblock _ He) Hes).
      subst s. contradiction.
    + apply IH; assumption.
Qed.

(** X11: when every listing reports well-formed names, each of them once,
    no path occurs twice in what [RListFolders] returns. *)
Theorem RListFolders_NoDup fuel : forall folder out,
  (forall p sub, sub ∈ (ListFolders p).1 -> name_ok sub = true) ->
  (forall p, NoDup (ListFolders p).1) ->
  RListFolders fuel folder = Some out ->
  NoDup out.
Proof.
  induction fuel as [|fuel IH]; intros folder out Hnames Hdistinct H;
    [discriminate|].
  rewrite RListFolders_S in H. apply sub_loop_spec in H as (outs & HF & ->).
  cbn [app].
  assert (Hok : Forall (fun sub => name_ok sub = true)
                       (ListFolders (list_path folder)).1).
  { apply Forall_forall. intros sub Hsub. eapply Hnames, Hsub. }
  apply appended_NoDup; [apply Hdistinct | exact Hok |].
  revert HF Hok. generalize (ListFolders (list_path folder)).1.
  intros names HF. induction HF as [|sub r subs outs Hr HF IHF]; intros Hok;
    [constructor|].
  apply Forall_cons in Hok as [Hsub Hok].
  constructor; [|apply IHF, Hok]. split.
  - eapply IH; [exact Hnames | exact Hdistinct | exact Hr].
  - eapply results_below; [exact Hsub | exact Hr].
Qed.

End ListingDistinct.

Lemma storage_names_distinct p :
  NoDup (Listing.ListFolders Fixtures.result_text Fixtures.storage
           Fixtures.range_order p).1.
Proof.
  unfold Listing.ListFolders, Fixtures.storage.
  repeat match goal with
         | |- context [String.eqb ?a ?b] => destruct (String.eqb a b)
         end;
    apply (bool_decide_unpack _); vm_compute; exact I.
Qed.

Lemma RListFolders_NoDup_witness :
  NoDup ["/c"; "/c/d"; "/a"; "/a/b"]%string.
Proof.
  apply (RListFolders_NoDup Fixtures.result_text Fixtures.storage
           Fixtures.range_order 3 "/").
  - exact storage_names_ok.
  - exact storage_names_distinct.
  - reflexivity.
Defined.

(** * Converting a native event *)

Section EventConversion.

Import Events.

Variable GP_EVENT_FILE_ADDED : Z.

(** X12: the conversion reads the payload only for a file-added event: it
    panics exactly when such an event comes with a null payload, it copies
    the payload's name to [File] and its folder to [Folder], and for every
    other type it returns the type with both fields empty, whatever the
    payload. *)
Theorem event_conversion vp eventType :
  (cCameraEventToGoCameraEvent GP_EVENT_FILE_ADDED vp eventType = None <->
   eventType = GP_EVENT_FILE_ADDED /\ vp = None) /\
  (forall c, eventType = GP_EVENT_FILE_ADDED -> vp = Some c ->
     cCameraEventToGoCameraEvent GP_EVENT_FILE_ADDED vp eventType =
       Some (mkEvent GP_EVENT_FILE_ADDED (folder c) (name c))) /\
  (eventType <> GP_EVENT_FILE_ADDED ->
   cCameraEventToGoCameraEvent GP_EVENT_FILE_ADDED vp eventType =
     Some (mkEvent eventType "" "")).
Proof.
  unfold cCameraEventToGoCameraEvent, EventFileAdded. cbn [Type_ Folder File].
  destruct (Z.eqb_spec eventType GP_EVENT_FILE_ADDED) as [->|Hne].
  - destruct vp as [c|]; cbn [mbind option_bind].
    + split; [split; [discriminate | intros [_ H]; discriminate]|].
      split; [intros c' _ [= <-]; reflexivity | congruence].
    + split; [split; [intros _; split; reflexivity | reflexivity]|].
      split; [intros c' _ H; discriminate | congruence].
  - split; [split; [discriminate | intros [H _]; congruence]|].
    split; [intros c' H; congruence | reflexivity].
Qed.

End EventConversion.
